(** * dotenv: parsing [.env] text and resolving a configuration

    A shallow embedding of [dotenv/mod.ts]: the line parser [parse] with its
    two regular expressions, the plain objects it fills, and the two load
    operations [configSync] and [config] with safe-mode validation and
    export into the process environment; and of [exists] and [existsSync]
    of the [fs] module for Node.

    Strings are sequences of UTF-16 code units in the source. Here a
    [string] stands for a sequence of code units below 256, one [ascii]
    per code unit; none of the two expressions has the [u] flag, so both
    work code unit by code unit as the matcher below does.

    The platform is the one the module sees through [Deno]: files that hold
    text (the bytes already decoded), are not found, or fail to be read, and
    a process environment that can be read and written ([Deno.env.get],
    [Deno.env.set] and [Deno.env.toObject] are taken to succeed). An option
    is either left out or given a value of its type. *)

From Stdlib Require Import Ascii String NArith Bool.
From stdpp Require Import base option list strings sorting gmap fin_maps.

Local Open Scope string_scope.

(** ** Characters and character classes *)

Definition LF : ascii := "010"%char.
Definition CR : ascii := "013"%char.
Definition DQUOTE : ascii := "034"%char.
Definition SQUOTE : ascii := "039"%char.
Definition BACKSLASH : ascii := "092"%char.

Definition code (c : ascii) : N := N_of_ascii c.

Definition in_range (lo hi c : ascii) : bool :=
  ((code lo <=? code c) && (code c <=? code hi))%N.

Definition is_char (x c : ascii) : bool := (code x =? code c)%N.

(** [\s]: WhiteSpace and LineTerminator code units (below 256: TAB, LF, VT,
    FF, CR, SP and NBSP). [String.prototype.trim] strips the same set. *)
Definition is_white_space (c : ascii) : bool :=
  in_range "009" "013" c || is_char " " c || is_char "160" c.

(** [.] without the [s] flag: everything but a line terminator. *)
Definition is_dot (c : ascii) : bool := negb (is_char LF c || is_char CR c).

Definition is_letter_ (c : ascii) : bool :=
  in_range "a" "z" c || in_range "A" "Z" c || is_char "_" c.

Definition is_ident_char (c : ascii) : bool :=
  is_letter_ c || in_range "0" "9" c || is_char " " c.

Definition is_quote (c : ascii) : bool := is_char DQUOTE c || is_char SQUOTE c.

(** ** A backtracking matcher for the expressions of the module

    The constructs the two expressions use, with the semantics of the
    ECMAScript pattern matcher: alternatives are tried left to right, a
    greedy quantifier tries one more iteration before the continuation and
    a lazy one the continuation first, an iteration that consumes nothing
    is rejected, and a named group that did not take part in the match is
    undefined (absent from [groups]). *)

Inductive regex : Type :=
| Eps
| Bol
| Class (p : ascii → bool)
| Seq (r1 r2 : regex)
| Alt (r1 r2 : regex)
| Star (greedy : bool) (r : regex)
| Named (name : string) (r : regex).

Definition groups : Type := list (string * string).

Definition group (name : string) (g : groups) : option string :=
  snd <$> List.find (λ e, if decide (e.1 = name) then true else false) g.

Fixpoint prefix_of (n : nat) (s : string) : string :=
  match n, s with
  | S n', String a s' => String a (prefix_of n' s')
  | _, _ => ""
  end.

Definition consumed (s s1 : string) : string :=
  prefix_of (String.length s - String.length s1) s.

Definition cont : Type := string → groups → option groups.

(** A quantifier [{0,}] around [body]: [fuel] bounds the iterations, and an
    iteration has to consume input. *)
Fixpoint star_loop (body : string → groups → cont → option groups)
    (greedy : bool) (k : cont) (fuel : nat) (s : string) (g : groups) :
    option groups :=
  match fuel with
  | O => k s g
  | S fuel' =>
      let again (s1 : string) (g1 : groups) :=
        if Nat.ltb (String.length s1) (String.length s)
        then star_loop body greedy k fuel' s1 g1 else None in
      if greedy then
        match body s g again with Some x => Some x | None => k s g end
      else
        match k s g with Some x => Some x | None => body s g again end
  end.

(** [m n0 r s g k]: match [r] at the suffix [s] of an input of length [n0],
    with the groups [g] captured so far, and go on with [k]. *)
Fixpoint m (n0 : nat) (r : regex) (s : string) (g : groups) (k : cont)
    {struct r} : option groups :=
  match r with
  | Eps => k s g
  | Bol => if Nat.eqb (String.length s) n0 then k s g else None
  | Class p =>
      match s with
      | String a s' => if p a then k s' g else None
      | EmptyString => None
      end
  | Seq r1 r2 => m n0 r1 s g (λ s1 g1, m n0 r2 s1 g1 k)
  | Alt r1 r2 =>
      match m n0 r1 s g k with
      | Some x => Some x
      | None => m n0 r2 s g k
      end
  | Star greedy r1 => star_loop (m n0 r1) greedy k (String.length s) s g
  | Named name r1 =>
      m n0 r1 s g (λ s1 g1, k s1 ((name, consumed s s1) :: g1))
  end.

(** [RegExp.prototype.exec] without the [g] and [y] flags: the leftmost
    start position at which the pattern matches. *)
Fixpoint search (n0 : nat) (r : regex) (s : string) : option groups :=
  match m n0 r s [] (λ _ g, Some g) with
  | Some g => Some g
  | None =>
      match s with
      | String _ s' => search n0 r s'
      | EmptyString => None
      end
  end.

Definition exec (r : regex) (input : string) : option groups :=
  search (String.length input) r input.

Definition test (r : regex) (input : string) : bool :=
  match exec r input with Some _ => true | None => false end.

Definition Plus (greedy : bool) (r : regex) : regex := Seq r (Star greedy r).

(** [/^\s*[a-zA-Z_][a-zA-Z_0-9 ]*\s*=/] *)
Definition RE_VariableStart : regex :=
  Seq Bol
 (Seq (Star true (Class is_white_space))
 (Seq (Class is_letter_)
 (Seq (Star true (Class is_ident_char))
 (Seq (Star true (Class is_white_space))
      (Class (is_char "=")))))).

(** [/\s{0,}(?<key>[^\s]+?)\s{0,}=\ {0,}(["'](?<quotedValue>(.|\n){0,})["']|(?<unQuotedValue>[^#]{0,}))/]
    The two unnamed groups are only read through the named ones. *)
Definition RE_KeyValue : regex :=
  Seq (Star true (Class is_white_space))
 (Seq (Named "key" (Plus false (Class (λ c, negb (is_white_space c)))))
 (Seq (Star true (Class is_white_space))
 (Seq (Class (is_char "="))
 (Seq (Star true (Class (is_char " ")))
      (Alt (Seq (Class is_quote)
           (Seq (Named "quotedValue"
                   (Star true (Alt (Class is_dot) (Class (is_char LF)))))
                (Class is_quote)))
           (Named "unQuotedValue"
              (Star true (Class (λ c, negb (is_char "#" c)))))))))).

(** ** String primitives *)

(** [String.prototype.split] with the separator LF. *)
Fixpoint split_lines (s : string) : list string :=
  match s with
  | EmptyString => [""]
  | String a s' =>
      if is_char LF a then "" :: split_lines s'
      else match split_lines s' with
           | l :: ls => String a l :: ls
           | [] => [String a ""]
           end
  end.

Fixpoint trimStart (s : string) : string :=
  match s with
  | String a s' => if is_white_space a then trimStart s' else s
  | EmptyString => ""
  end.

Fixpoint trimEnd (s : string) : string :=
  match s with
  | EmptyString => ""
  | String a s' =>
      match trimEnd s' with
      | EmptyString => if is_white_space a then "" else String a ""
      | t => String a t
      end
  end.

(** [String.prototype.trim] *)
Definition trim (s : string) : string := trimEnd (trimStart s).

(** [str.replaceAll("\\n", "\n")]: every backslash followed by [n], left to
    right, becomes one LF. *)
Fixpoint expandNewlines (str : string) : string :=
  match str with
  | String a s' =>
      match s' with
      | String b s'' =>
          if is_char BACKSLASH a && is_char "n" b
          then String LF (expandNewlines s'')
          else String a (expandNewlines s')
      | EmptyString => str
      end
  | EmptyString => ""
  end.

Fixpoint join (sep : string) (l : list string) : string :=
  match l with
  | [] => ""
  | [x] => x
  | x :: l' => x +:+ sep +:+ join sep l'
  end.

(** ** Plain objects with string values

    [DotenvConfig] is a plain object ([{}], prototype [Object.prototype])
    whose own properties are enumerable data properties holding strings. It
    is kept as the list of its own properties in the order [Object.keys] and
    [for ... in] report them: array indices in ascending order first, then
    the other keys in the order they were created. *)

Definition DotenvConfig : Type := list (string * string).

Fixpoint digits (acc : N) (s : string) : option N :=
  match s with
  | EmptyString => Some acc
  | String c s' =>
      if in_range "0" "9" c
      then digits (acc * 10 + (code c - 48))%N s'
      else None
  end.

(** An array index is the canonical decimal form of an integer below
    [2^32 - 1]. *)
Definition array_index (k : string) : option N :=
  match k with
  | EmptyString => None
  | String c s' =>
      if is_char "0" c then
        match s' with EmptyString => Some 0%N | _ => None end
      else
        match digits 0 k with
        | Some n => if (n <? 4294967295)%N then Some n else None
        | None => None
        end
  end.

Definition comes_before (k k' : string) : bool :=
  match array_index k, array_index k' with
  | Some n, Some n' => (n <? n')%N
  | Some _, None => true
  | None, _ => false
  end.

Fixpoint add_property (k v : string) (o : DotenvConfig) : DotenvConfig :=
  match o with
  | [] => [(k, v)]
  | (k', v') :: o' =>
      if comes_before k k' then (k, v) :: o
      else (k', v') :: add_property k v o'
  end.

Fixpoint get (k : string) (o : DotenvConfig) : option string :=
  match o with
  | [] => None
  | (k', v') :: o' => if decide (k' = k) then Some v' else get k o'
  end.

Fixpoint update (k v : string) (o : DotenvConfig) : DotenvConfig :=
  match o with
  | [] => []
  | (k', v') :: o' =>
      if decide (k' = k) then (k, v) :: o' else (k', v') :: update k v o'
  end.

(** [CreateDataProperty], as [Object.fromEntries] uses it. *)
Definition define (k v : string) (o : DotenvConfig) : DotenvConfig :=
  match get k o with
  | Some _ => update k v o
  | None => add_property k v o
  end.

(** The assignment [o[k] = v] of a string [v]. Deno deletes the accessor
    [__proto__] of [Object.prototype] when it starts, so every property of
    [Object.prototype] is a writable data property, which the assignment
    shadows with an own one: whatever [k] is, [__proto__] included, the
    assignment creates or updates the own property [k]. *)
Definition set (k v : string) (o : DotenvConfig) : DotenvConfig := define k v o.

(** The property names of [Object.prototype] in Deno, none of them
    enumerable; [__proto__] is not among them. *)
Definition Object_prototype : list string :=
  [ "constructor"; "__defineGetter__"; "__defineSetter__"; "hasOwnProperty";
    "__lookupGetter__"; "__lookupSetter__"; "isPrototypeOf";
    "propertyIsEnumerable"; "toString"; "valueOf"; "toLocaleString" ].

Definition hasOwn (k : string) (o : DotenvConfig) : bool :=
  match get k o with Some _ => true | None => false end.

(** [k in o]: own or inherited. *)
Definition has_property (k : string) (o : DotenvConfig) : bool :=
  hasOwn k o || bool_decide (k ∈ Object_prototype).

Definition Object_keys (o : DotenvConfig) : list string := o.*1.
Arguments Object_keys : simpl never.

(** [Object.assign(target, source)] *)
Definition Object_assign (target source : DotenvConfig) : DotenvConfig :=
  foldl (λ t e, set e.1 e.2 t) target source.

(** ** Results and thrown values *)

Inductive thrown : Type :=
| TypeError
| DenoError (e : string)
| MissingEnvVarsError (message : string).

Inductive result (A : Type) : Type :=
| Return (a : A)
| Throw (e : thrown).
Arguments Return {A} a.
Arguments Throw {A} e.

(** ** parse *)

Definition truthy (v : option string) : bool :=
  match v with
  | Some (String _ _) => true
  | _ => false
  end.

(** One turn of the loop of [parse] on [line], with [env] so far. *)
Definition parse_line (env : DotenvConfig) (line : string) : result DotenvConfig :=
  if negb (test RE_VariableStart line) then Return env
  else
    match exec RE_KeyValue line with
    | None => Throw TypeError
    | Some g =>
        let newKey := default "undefined" (group "key" g) in
        let quotedValue := group "quotedValue" g in
        let unQuotedValue := group "unQuotedValue" g in
        if truthy quotedValue
        then Return (set newKey (expandNewlines (default "" quotedValue)) env)
        else
          match unQuotedValue with
          | Some u => Return (set newKey (trim u) env)
          | None => Throw TypeError
          end
    end.

Fixpoint parse_lines (env : DotenvConfig) (lines : list string) : result DotenvConfig :=
  match lines with
  | [] => Return env
  | line :: rest =>
      match parse_line env line with
      | Return env' => parse_lines env' rest
      | Throw e => Throw e
      end
  end.

Definition parse (rawDotenv : string) : result DotenvConfig :=
  parse_lines [] (split_lines rawDotenv).

(** ** The platform: files and the process environment

    [Deno.readFileSync] and [Deno.readFile] read the same files; a read
    gives the decoded text, fails with [Deno.errors.NotFound], or fails with
    some other error [e]. On some platforms [Deno.readFileSync] is not a
    function. The process environment is a finite map from names to values:
    [Deno.env.get] looks a name up, [Deno.env.set] binds it. *)

Inductive ReadResult : Type :=
| Data (text : string)
| NotFound
| Failed (e : string).

Record Deno : Type := {
  files : string → ReadResult;
  readFileSync_is_function : bool;
}.

(** Code that reads and writes the process environment and may throw. *)
Definition M (A : Type) : Type :=
  gmap string string → result A * gmap string string.

#[global] Instance M_ret : MRet M := λ A a env, (Return a, env).
#[global] Instance M_bind : MBind M := λ A B f c env,
  match c env with
  | (Return a, env') => f a env'
  | (Throw e, env') => (Throw e, env')
  end.

Definition throw {A : Type} (e : thrown) : M A := λ env, (Throw e, env).
Definition lift {A : Type} (r : result A) : M A := λ env, (r, env).

Definition Deno_env_get (key : string) : M (option string) :=
  λ env, (Return (env !! key), env).
Definition Deno_env_set (key value : string) : M unit :=
  λ env, (Return (), <[key := value]> env).
(** [Deno.env.toObject()]: a fresh object with one property per variable. *)
Definition toObject (env : gmap string string) : DotenvConfig :=
  foldl (λ o e, define e.1 e.2 o) [] (map_to_list env).
Definition Deno_env_toObject : M DotenvConfig :=
  λ env, (Return (toObject env), env).

(** [for (const key in o) body]: the own properties of [o], in order. *)
Fixpoint for_in (o : DotenvConfig) (body : string → M unit) : M unit :=
  match o with
  | [] => mret ()
  | (key, _) :: o' => body key ≫= λ _, for_in o' body
  end.

(** ** Options *)

Record ConfigOptions : Type := {
  path : option string;
  export : option bool;
  safe : option bool;
  example : option string;
  allowEmptyValues : option bool;
  defaults : option string;
}.

(** [Required<ConfigOptions>] *)
Record RequiredConfigOptions : Type := {
  o_path : string;
  o_export : bool;
  o_safe : bool;
  o_example : string;
  o_allowEmptyValues : bool;
  o_defaults : string;
}.

Definition defaultConfigOptions : RequiredConfigOptions := {|
  o_path := ".env";
  o_export := false;
  o_safe := false;
  o_example := ".env.example";
  o_allowEmptyValues := false;
  o_defaults := ".env.defaults";
|}.

(** [{ ...defaultConfigOptions, ...options }] *)
Definition spread (d : RequiredConfigOptions) (options : ConfigOptions) :
    RequiredConfigOptions := {|
  o_path := default (o_path d) (path options);
  o_export := default (o_export d) (export options);
  o_safe := default (o_safe d) (safe options);
  o_example := default (o_example d) (example options);
  o_allowEmptyValues := default (o_allowEmptyValues d) (allowEmptyValues options);
  o_defaults := default (o_defaults d) (defaults options);
|}.

Definition nonempty (s : string) : bool :=
  match s with EmptyString => false | String _ _ => true end.

(** ** Reading and parsing a file *)

Definition parseFile (D : Deno) (filepath : string) : result DotenvConfig :=
  if negb (readFileSync_is_function D) then Return []
  else
    match files D filepath with
    | Data text => parse text
    | NotFound => Return []
    | Failed e => Throw (DenoError e)
    end.

Definition parseFileAsync (D : Deno) (filepath : string) : result DotenvConfig :=
  match files D filepath with
  | Data text => parse text
  | NotFound => Return []
  | Failed e => Throw (DenoError e)
  end.

(** ** Safe mode *)

(** Modelled from the spec: [removeEmptyValues] of [util.ts], which is not
    among the sources. With [allowEmptyValues] false a key counts as present
    only if its value is non-empty: the properties with an empty value are
    left out. *)
Definition removeEmptyValues (obj : DotenvConfig) : DotenvConfig :=
  List.filter (λ e, nonempty e.2) obj.

(** Modelled from the spec: [difference] of [util.ts], which is not among
    the sources. The keys of the first list that are not in the second. The
    specification has the error carry the sorted list of the missing keys,
    and [assertSafe] only joins what [difference] returns: the keys are
    returned sorted, by code units. *)
Definition difference (arrA arrB : list string) : list string :=
  merge_sort String.le (List.filter (λ a, negb (bool_decide (a ∈ arrB))) arrA).

Definition errorMessage (missing : list string) (allowEmptyValues : bool) : string :=
  let errorMessages :=
    [ Some ("The following variables were defined in the example file but are not present in the environment:"
            +:+ String LF "  " +:+ join ", " missing);
      Some "Make sure to add them to your env file.";
      if negb allowEmptyValues
      then Some "If you expect any of these variables to be empty, you can set the allowEmptyValues option to true."
      else None ] in
  join (String LF (String LF "")) (omap id errorMessages).

(** [Object.assign({}, currentEnv, conf)] *)
Definition confWithEnv (currentEnv conf : DotenvConfig) : DotenvConfig :=
  Object_assign (Object_assign [] currentEnv) conf.

Definition assertSafe (conf confExample : DotenvConfig) (allowEmptyValues : bool) : M unit :=
  currentEnv ← Deno_env_toObject;
  let confWithEnv := confWithEnv currentEnv conf in
  let missing :=
    difference (Object_keys confExample)
      (Object_keys (if allowEmptyValues then confWithEnv
                    else removeEmptyValues confWithEnv)) in
  if Nat.ltb 0 (length missing)
  then throw (MissingEnvVarsError (errorMessage missing allowEmptyValues))
  else mret ().

(** ** The load operations *)

(** The loop that copies the defaults: [conf] after
    [for (const key in confDefaults) if (!(key in conf)) conf[key] = confDefaults[key]]. *)
Definition copy_defaults (conf confDefaults : DotenvConfig) : DotenvConfig :=
  foldl (λ conf e, if negb (has_property e.1 conf) then set e.1 e.2 conf else conf)
        conf confDefaults.

Definition export_key (conf : DotenvConfig) (key : string) : M unit :=
  v ← Deno_env_get key;
  match v with
  | Some _ => mret ()
  | None => Deno_env_set key (default "undefined" (get key conf))
  end.

Definition configSync (D : Deno) (options : ConfigOptions) : M DotenvConfig :=
  let o := spread defaultConfigOptions options in
  conf ← lift (parseFile D (o_path o));
  conf ← (if nonempty (o_defaults o) then
            confDefaults ← lift (parseFile D (o_defaults o));
            mret (copy_defaults conf confDefaults)
          else mret conf);
  _ ← (if o_safe o then
         confExample ← lift (parseFile D (o_example o));
         assertSafe conf confExample (o_allowEmptyValues o)
       else mret ());
  _ ← (if o_export o then for_in conf (export_key conf) else mret ());
  mret conf.

Definition config (D : Deno) (options : ConfigOptions) : M DotenvConfig :=
  let o := spread defaultConfigOptions options in
  conf ← lift (parseFileAsync D (o_path o));
  conf ← (if nonempty (o_defaults o) then
            confDefaults ← lift (parseFileAsync D (o_defaults o));
            mret (copy_defaults conf confDefaults)
          else mret conf);
  _ ← (if o_safe o then
         confExample ← lift (parseFileAsync D (o_example o));
         assertSafe conf confExample (o_allowEmptyValues o)
       else mret ());
  _ ← (if o_export o then for_in conf (export_key conf) else mret ());
  mret conf.

(** ** [exists] and [existsSync] of the [fs] module for Node

    A path is a string or a [URL]; [fromFileUrl] of [path.ts] turns a file
    URL into a path and throws on any other URL. [Deno.lstat] and
    [Deno.lstatSync] see the same file system: on a path they give the file
    information, fail with [Deno.errors.NotFound], or fail with some other
    error. The callback is taken not to throw; what [exists] does with it is
    kept as the list of the calls it receives, in order. *)

Inductive PathLike : Type :=
| PathString (path : string)
| PathURL (href : string).

Inductive LstatError : Type :=
| LstatNotFound
| LstatFailed (e : string).

Inductive LstatResult : Type :=
| FileInfo
| LstatThrows (err : LstatError).

(** One call [callback(error, exists)]; [None] is [null]. *)
Definition CallbackCall : Type := option LstatError * bool.

Section Exists.
Variable fromFileUrl : string → result string.
Variable lstat : string → LstatResult.

(** [path instanceof URL ? fromFileUrl(path) : path] *)
Definition toPath (path : PathLike) : result string :=
  match path with
  | PathString p => Return p
  | PathURL href => fromFileUrl href
  end.

(** The calls the two handlers of [Deno.lstat(path).then(...)] make once the
    promise is settled. The handler of a rejection has no [return] after
    its first call. *)
Definition exists_ (path : PathLike) : result (list CallbackCall) :=
  match toPath path with
  | Throw e => Throw e
  | Return p =>
      Return
        match lstat p with
        | FileInfo => [(None, true)]
        | LstatThrows err =>
            ((match err with
              | LstatNotFound => [(None, false)]
              | LstatFailed _ => []
              end) ++ [(Some err, false)])%list
        end
  end.

Definition existsSync (path : PathLike) : result bool :=
  match toPath path with
  | Throw e => Throw e
  | Return p =>
      match lstat p with
      | FileInfo => Return true
      | LstatThrows LstatNotFound => Return false
      | LstatThrows (LstatFailed e) => Throw (DenoError e)
      end
  end.
End Exists.

(** * Definitions for the statements

    Predicates and functions the properties below are stated with, and the
    concrete platforms, environments and inputs they are tried on. *)

(** ** Objects, the overlay and the effect of a load *)

(** An object has no key twice: the list of its own properties is well
    formed. *)
Definition wf (o : DotenvConfig) : Prop := NoDup (Object_keys o).

(** The value the overlay binds a name to: the one of the file-derived map
    if it binds the name, and otherwise the one of the environment. *)
Definition overlaid (env : gmap string string) (conf : DotenvConfig)
    (k : string) : option string :=
  match get k conf with Some v => Some v | None => env !! k end.

(** A name is present when the overlay binds it, to a non-empty value
    unless empty values are allowed. *)
Definition is_present (allowEmptyValues : bool) (v : option string) : bool :=
  match v with
  | Some v => allowEmptyValues || nonempty v
  | None => false
  end.

(** The keys of the example map that are not present in the overlay, in
    the order of the example map, and sorted. *)
Definition not_present (env : gmap string string) (conf confExample : DotenvConfig)
    (allowEmptyValues : bool) : list string :=
  List.filter (λ k, negb (is_present allowEmptyValues (overlaid env conf k)))
    (Object_keys confExample).

Definition missing_keys (env : gmap string string) (conf confExample : DotenvConfig)
    (allowEmptyValues : bool) : list string :=
  merge_sort String.le (not_present env conf confExample allowEmptyValues).

(** What a load that ended in [out] did to the environment [env]: nothing
    when it threw or when [export] is off; otherwise every name that had a
    value kept it, and a name that had none has the value the returned map
    binds it to, if any. *)
Definition load_effect (o : RequiredConfigOptions) (env : gmap string string)
    (out : result DotenvConfig * gmap string string) : Prop :=
  match out.1 with
  | Throw _ => out.2 = env
  | Return conf =>
      if o_export o
      then ∀ k, out.2 !! k = match env !! k with Some v => Some v | None => get k conf end
      else out.2 = env
  end.

(** The steps of a load, one after the other, with the function [read] it
    reads a source with. *)
Definition load_steps (read : string → result DotenvConfig)
    (o : RequiredConfigOptions) (env : gmap string string) :
    result DotenvConfig * gmap string string :=
  match read (o_path o) with
  | Throw e => (Throw e, env)
  | Return conf0 =>
      match (if nonempty (o_defaults o) then
               match read (o_defaults o) with
               | Return confDefaults => Return (copy_defaults conf0 confDefaults)
               | Throw e => Throw e
               end
             else Return conf0) with
      | Throw e => (Throw e, env)
      | Return conf =>
          match (if o_safe o then
                   match read (o_example o) with
                   | Return confExample =>
                       (assertSafe conf confExample (o_allowEmptyValues o) env).1
                   | Throw e => Throw e
                   end
                 else Return ()) with
          | Throw e => (Throw e, env)
          | Return _ =>
              (Return conf,
               if o_export o then (for_in conf (export_key conf) env).2 else env)
          end
      end
  end.

(** The two loads with the function each reads its sources with. *)
Definition loads : list ((Deno → ConfigOptions → M DotenvConfig) *
                         (Deno → string → result DotenvConfig)) :=
  [(configSync, parseFile); (config, parseFileAsync)].

(** ** Strings and lines *)

Fixpoint all (p : ascii → bool) (s : string) : bool :=
  match s with
  | EmptyString => true
  | String a s' => p a && all p s'
  end.

Definition head_is (p : ascii → bool) (s : string) : bool :=
  match s with
  | String a _ => p a
  | EmptyString => false
  end.

Fixpoint take_while (p : ascii → bool) (s : string) : string :=
  match s with
  | String a s' => if p a then String a (take_while p s') else ""
  | EmptyString => ""
  end.

Fixpoint drop_while (p : ascii → bool) (s : string) : string :=
  match s with
  | String a s' => if p a then drop_while p s' else s
  | EmptyString => ""
  end.

(** [[a-zA-Z_0-9]] *)
Definition is_word (c : ascii) : bool := is_letter_ c || in_range "0" "9" c.

(** A key as [.env] files write it: a letter or underscore, then letters,
    digits and underscores. *)
Definition is_key (key : string) : bool := head_is is_letter_ key && all is_word key.

Definition not_hash (c : ascii) : bool := negb (is_char "#" c).
Definition not_CR (c : ascii) : bool := is_dot c || is_char LF c.
Definition not_quote (c : ascii) : bool := negb (is_quote c).
Definition not_LF (c : ascii) : bool := negb (is_char LF c).

(** The two characters [\n] occur in [s]. *)
Fixpoint has_escape (s : string) : bool :=
  match s with
  | String a s' =>
      match s' with
      | String b _ => (is_char BACKSLASH a && is_char "n" b) || has_escape s'
      | EmptyString => false
      end
  | EmptyString => false
  end.

(** ** The matcher *)

(** What the matcher does on [c*] and [c*?] for a class [c], as a function
    of the input: the greedy one goes on with the continuation after the
    longest run first and then after shorter ones, the lazy one after the
    shortest first. *)
Fixpoint greedy (p : ascii → bool) (k : cont) (s : string) (g : groups) :
    option groups :=
  match s with
  | String a s' =>
      if p a
      then match greedy p k s' g with Some x => Some x | None => k s g end
      else k s g
  | EmptyString => k s g
  end.

Fixpoint lazy (p : ascii → bool) (k : cont) (s : string) (g : groups) :
    option groups :=
  match k s g with
  | Some x => Some x
  | None =>
      match s with
      | String a s' => if p a then lazy p k s' g else None
      | EmptyString => None
      end
  end.

(** The continuation at the end of the expression. *)
Definition final : cont := λ _ g, Some g.

(** The value: [(["'](?<quotedValue>(.|\n){0,})["']|(?<unQuotedValue>[^#]{0,}))] *)
Definition value_part : regex :=
  Alt (Seq (Class is_quote)
      (Seq (Named "quotedValue"
              (Star true (Alt (Class is_dot) (Class (is_char LF)))))
           (Class is_quote)))
      (Named "unQuotedValue" (Star true (Class (λ c, negb (is_char "#" c))))).

(** What follows the key: [\s{0,}=\ {0,}] and the value. *)
Definition after_key : regex :=
  Seq (Star true (Class is_white_space))
 (Seq (Class (is_char "="))
 (Seq (Star true (Class (is_char " "))) value_part)).

(** [matches n0 r s g s1 g1]: [r] matches the text between the suffixes [s]
    and [s1] of an input of length [n0], and turns the groups [g] into
    [g1]. *)
Inductive matches (n0 : nat) : regex → string → groups → string → groups → Prop :=
| matches_Eps s g : matches n0 Eps s g s g
| matches_Bol s g : String.length s = n0 → matches n0 Bol s g s g
| matches_Class p a s g : p a = true → matches n0 (Class p) (String a s) g s g
| matches_Seq r1 r2 s g s1 g1 s2 g2 :
    matches n0 r1 s g s1 g1 → matches n0 r2 s1 g1 s2 g2 →
    matches n0 (Seq r1 r2) s g s2 g2
| matches_Alt_l r1 r2 s g s1 g1 :
    matches n0 r1 s g s1 g1 → matches n0 (Alt r1 r2) s g s1 g1
| matches_Alt_r r1 r2 s g s1 g1 :
    matches n0 r2 s g s1 g1 → matches n0 (Alt r1 r2) s g s1 g1
| matches_Star_0 b r s g : matches n0 (Star b r) s g s g
| matches_Star_S b r s g s1 g1 s2 g2 :
    matches n0 r s g s1 g1 → matches n0 (Star b r) s1 g1 s2 g2 →
    matches n0 (Star b r) s g s2 g2
| matches_Named name r s g s1 g1 :
    matches n0 r s g s1 g1 →
    matches n0 (Named name r) s g s1 ((name, consumed s s1) :: g1).

(** ** Concrete options, platforms and inputs *)

Definition dq (s : string) : string := String DQUOTE (s +:+ String DQUOTE "").
Definition nl : string := String LF "".

(** [{}], [{ export: true }], [{ defaults: "d" }], [{ safe: true }] *)
Definition no_options : ConfigOptions :=
  {| path := None; export := None; safe := None; example := None;
     allowEmptyValues := None; defaults := None |}.
Definition export_true : ConfigOptions :=
  {| path := None; export := Some true; safe := None; example := None;
     allowEmptyValues := None; defaults := None |}.
Definition defaults_d : ConfigOptions :=
  {| path := None; export := None; safe := None; example := None;
     allowEmptyValues := None; defaults := Some "d" |}.
Definition safe_true : ConfigOptions :=
  {| path := None; export := None; safe := Some true; example := None;
     allowEmptyValues := None; defaults := None |}.

(** [{ ...options, export: b }] *)
Definition with_export (b : bool) (options : ConfigOptions) : ConfigOptions :=
  {| path := path options; export := Some b; safe := safe options;
     example := example options; allowEmptyValues := allowEmptyValues options;
     defaults := defaults options |}.

(** A directory given by the files it holds; every other path is not found. *)
Fixpoint directory (l : list (string * string)) (filepath : string) : ReadResult :=
  match l with
  | [] => NotFound
  | (name, text) :: l' =>
      if decide (name = filepath) then Data text else directory l' filepath
  end.

(** No file at all. *)
Definition D_empty : Deno :=
  {| files := directory []; readFileSync_is_function := true |}.

(** A platform whose [.env] binds [A] to [1], and an environment that
    already binds [A]. *)
Definition D_A1 : Deno :=
  {| files := directory [(".env", "A=1")]; readFileSync_is_function := true |}.
Definition env_A_old : gmap string string := {[ "A" := "old" ]}.

(** A platform that has the file [.env] but no [Deno.readFileSync]. *)
Definition D_deploy : Deno :=
  {| files := directory [(".env", "A=1")]; readFileSync_is_function := false |}.

(** No [.env], and a [.env.defaults] that binds [A]. *)
Definition D_only_defaults : Deno :=
  {| files := directory [(".env.defaults", "A=1")]; readFileSync_is_function := true |}.

(** A platform whose [.env] binds [K] to the empty string and whose example
    requires [K], and an environment that binds [K] to a value. *)
Definition D_K_empty : Deno :=
  {| files := directory [(".env", "K="); (".env.example", "K=")];
     readFileSync_is_function := true |}.
Definition env_K : gmap string string := {[ "K" := "v" ]}.

(** A platform whose [.env] binds [A] to the empty string and [B] to a
    value and whose example requires both, and an environment that binds
    [A] to a value. *)
Definition D_A_empty : Deno :=
  {| files := directory [(".env", "A=" +:+ nl +:+ "B=2");
                         (".env.example", "A=" +:+ nl +:+ "B=")];
     readFileSync_is_function := true |}.
Definition env_A_x : gmap string string := {[ "A" := "x" ]}.

(** A platform with the three default sources, and an environment that
    binds [H]. *)
Definition D_three : Deno :=
  {| files := directory
       [(".env", "A=1" +:+ nl +:+ "C=");
        (".env.defaults", "B=3");
        (".env.example", "Z=" +:+ nl +:+ "A=" +:+ nl +:+ "C=" +:+ nl +:+ "H=")];
     readFileSync_is_function := true |}.
Definition env_H : gmap string string := {[ "H" := "h" ]}.

(** No [.env], and a defaults file [d] that binds [toString]. *)
Definition D_toString : Deno :=
  {| files := directory [("d", "toString=1")]; readFileSync_is_function := true |}.

(** [.env] binds [A] to [1]; [d] binds [A] to [2] and [B] to [3]. *)
Definition D_A1_d : Deno :=
  {| files := directory [(".env", "A=1"); ("d", "A=2" +:+ nl +:+ "B=3")];
     readFileSync_is_function := true |}.

(** The input of the example: [FOO=bar], [BAZ="qux\nquux"], a comment and
    a line without [=]. *)
Definition example_input : string :=
  "FOO=bar" +:+ nl +:+ "BAZ=" +:+ dq "qux\nquux" +:+ nl +:+ "# comment"
  +:+ nl +:+ "BADLINE".

(** ** Options and platforms for the loads *)

(** [{ ...options, allowEmptyValues: b }] *)
Definition with_allowEmptyValues (b : bool) (options : ConfigOptions) : ConfigOptions :=
  {| path := path options; export := export options; safe := safe options;
     example := example options; allowEmptyValues := Some b;
     defaults := defaults options |}.

(** [{ safe: true, export: true }] *)
Definition safe_export : ConfigOptions :=
  {| path := None; export := Some true; safe := Some true; example := None;
     allowEmptyValues := None; defaults := None |}.

(** The sources a load with the options [o] may read: the primary one, the
    defaults unless their path is empty, and the example in safe mode. *)
Definition is_source (o : RequiredConfigOptions) (filepath : string) : Prop :=
  filepath = o_path o ∨
  (nonempty (o_defaults o) = true ∧ filepath = o_defaults o) ∨
  (o_safe o = true ∧ filepath = o_example o).

(** [.env] binds [A] and [B], the example requires [A] and [H]. *)
Definition D_safe : Deno :=
  {| files := directory
       [(".env", "A=1" +:+ nl +:+ "B=2");
        (".env.example", "A=" +:+ nl +:+ "H=")];
     readFileSync_is_function := true |}.

(** The platform [D_A1] with one more file, which no default option names. *)
Definition D_A1_other : Deno :=
  {| files := directory [(".env", "A=1"); (".env.example", "Z=")];
     readFileSync_is_function := true |}.

(** ** A scanner for one line

    What [parse] does with a line, written without regular expressions: a
    test of the shape of the line, the key as the last word before the
    first [=], and the value read off the text after that [=]. *)

Definition not_eq (c : ascii) : bool := negb (is_char "=" c).
Definition not_white_space (c : ascii) : bool := negb (is_white_space c).
Definition is_word_or_space (c : ascii) : bool := is_word c || is_white_space c.

(** The longest suffix of [s] whose characters all satisfy [p]. *)
Fixpoint suffix_run (p : ascii → bool) (s : string) : string :=
  match s with
  | EmptyString => ""
  | String _ s' => if all p s then s else suffix_run p s'
  end.

(** The text before the last character of [s] that satisfies [p], if there
    is one. *)
Fixpoint before_last (p : ascii → bool) (s : string) : option string :=
  match s with
  | EmptyString => None
  | String a s' =>
      match before_last p s' with
      | Some q => Some (String a q)
      | None => if p a then Some "" else None
      end
  end.

(** The line starts, after white space, with a letter or underscore, and
    after the letters, digits, underscores and spaces that follow, and
    white space, comes a [=]. *)
Definition accepts (line : string) : bool :=
  let t := drop_while is_white_space line in
  head_is is_letter_ t &&
  head_is (is_char "=") (drop_while is_white_space (drop_while is_ident_char t)).

(** The last word of [s]: its trailing white space dropped, the longest
    run of letters, digits and underscores at its end. *)
Definition last_word (s : string) : string := suffix_run is_word (trimEnd s).

(** The text before the first [=] of the line, and the text after it. *)
Definition before_eq (line : string) : string := take_while not_eq line.
Definition after_eq (line : string) : string :=
  match drop_while not_eq line with
  | String _ rest => rest
  | EmptyString => ""
  end.

Definition key_of (line : string) : string := last_word (before_eq line).

(** The value of the text after the [=], [None] where [parse] throws. After
    the spaces, a quote opens a quoted value if a quote follows before the
    next carriage return: the value is the text up to the last such quote,
    with its escaped newlines expanded, and must not be empty. Every other
    value is the text up to the first [#], trimmed. *)
Definition value_of (rest : string) : option string :=
  let unquoted := Some (trim (take_while not_hash rest)) in
  match drop_while (is_char " ") rest with
  | String o body =>
      if is_quote o then
        match before_last is_quote (take_while not_CR body) with
        | Some q => if nonempty q then Some (expandNewlines q) else None
        | None => unquoted
        end
      else unquoted
  | EmptyString => unquoted
  end.

Definition scan_line (env : DotenvConfig) (line : string) : result DotenvConfig :=
  if accepts line then
    match value_of (after_eq line) with
    | Some v => Return (set (key_of line) v env)
    | None => Throw TypeError
    end
  else Return env.

Fixpoint scan_lines (env : DotenvConfig) (lines : list string) : result DotenvConfig :=
  match lines with
  | [] => Return env
  | line :: rest =>
      match scan_line env line with
      | Return env' => scan_lines env' rest
      | Throw e => Throw e
      end
  end.

Definition scan (rawDotenv : string) : result DotenvConfig :=
  scan_lines [] (split_lines rawDotenv).

(** The line ending of a text with carriage returns. *)
Definition crlf : string := String CR nl.

(** * Properties *)

Ltac unfold_M :=
  unfold mbind, M_bind, mret, M_ret, lift, throw, Deno_env_get, Deno_env_set,
    Deno_env_toObject in *.

(** ** Appending strings *)

Lemma app_cons a (s t : string) : String a s +:+ t = String a (s +:+ t).
Proof. done. Qed.

Lemma app_nil_l (s : string) : "" +:+ s = s.
Proof. done. Qed.

Lemma app_nil_r (s : string) : s +:+ "" = s.
Proof. induction s as [|a s IH]; [done|]. by rewrite app_cons, IH. Qed.

Lemma app_assoc (s t u : string) : (s +:+ t) +:+ u = s +:+ t +:+ u.
Proof. induction s as [|a s IH]; [done|]. by rewrite !app_cons, IH. Qed.

(** ** Own properties *)

Lemma get_update k k' v o :
  get k (update k' v o) =
  if decide (k' = k) then (λ _, v) <$> get k o else get k o.
Proof.
  induction o as [|[k1 v1] o IH]; simpl.
  - by case_decide.
  - destruct (decide (k1 = k')) as [->|Hne]; simpl.
    + by destruct (decide (k' = k)).
    + rewrite IH. by repeat case_decide; simplify_eq.
Qed.

Lemma get_add_property_ne k k' v o :
  k' ≠ k → get k (add_property k' v o) = get k o.
Proof.
  intros Hne. induction o as [|[k1 v1] o IH]; simpl.
  - by rewrite decide_False.
  - destruct (comes_before k' k1); simpl.
    + by rewrite decide_False.
    + by rewrite IH.
Qed.

Lemma get_add_property_eq k v o :
  get k o = None → get k (add_property k v o) = Some v.
Proof.
  induction o as [|[k1 v1] o IH]; simpl.
  - by rewrite decide_True.
  - destruct (decide (k1 = k)) as [->|Hne]; [done|]. intros Hnone.
    destruct (comes_before k k1); simpl.
    + by rewrite decide_True.
    + rewrite decide_False by done. auto.
Qed.

Lemma get_define k k' v o :
  get k (define k' v o) = if decide (k' = k) then Some v else get k o.
Proof.
  unfold define. destruct (get k' o) eqn:Hget.
  - rewrite get_update. case_decide; [subst; by rewrite Hget|done].
  - case_decide; [subst; by apply get_add_property_eq|].
    by apply get_add_property_ne.
Qed.

Lemma get_set k k' v o :
  get k (set k' v o) = if decide (k' = k) then Some v else get k o.
Proof. apply get_define. Qed.

Lemma Object_keys_cons k v (o : DotenvConfig) :
  Object_keys ((k, v) :: o) = k :: Object_keys o.
Proof. done. Qed.

Lemma bool_decide_cons_ne (k k1 : string) (l : list string) :
  k ≠ k1 → bool_decide (k ∈ k1 :: l) = bool_decide (k ∈ l).
Proof.
  intros Hne. apply bool_decide_ext. rewrite elem_of_cons.
  split; [by intros [?|?]|by right].
Qed.

Lemma elem_of_keys_get k (o : DotenvConfig) :
  k ∈ Object_keys o ↔ is_Some (get k o).
Proof.
  unfold Object_keys. induction o as [|[k1 v1] o IH]; simpl.
  - split; [by intros ?%elem_of_nil|by intros [? ?]].
  - rewrite elem_of_cons, IH. destruct (decide (k1 = k)) as [->|Hne].
    + split; [by eexists|by left].
    + split; [by intros [?|?]|by right].
Qed.

Lemma keys_update k v o : Object_keys (update k v o) = Object_keys o ∨ get k o = None.
Proof.
  induction o as [|[k1 v1] o IH]; simpl; [by left|].
  destruct (decide (k1 = k)) as [->|Hne]; [by left|].
  destruct IH as [IH|IH]; [left|by right].
  by rewrite !Object_keys_cons, IH.
Qed.

Lemma keys_add_property k v o :
  Object_keys (add_property k v o) ≡ₚ k :: Object_keys o.
Proof.
  induction o as [|[k1 v1] o IH]; simpl; [done|].
  destruct (comes_before k k1); [done|].
  rewrite !Object_keys_cons, IH. apply Permutation_swap.
Qed.

Lemma keys_define k v o :
  Object_keys (define k v o) ≡ₚ
  if hasOwn k o then Object_keys o else k :: Object_keys o.
Proof.
  unfold define, hasOwn. destruct (get k o) eqn:Hget.
  - destruct (keys_update k v o) as [->|?]; [done|congruence].
  - apply keys_add_property.
Qed.

Lemma hasOwn_elem_of k o : hasOwn k o = true ↔ k ∈ Object_keys o.
Proof.
  rewrite elem_of_keys_get. unfold hasOwn.
  destruct (get k o); split; [by eexists|done|done|by intros [? ?]].
Qed.

Lemma wf_nil : wf [].
Proof. constructor. Qed.

Lemma NoDup_keys_define k v o :
  NoDup (Object_keys o) → NoDup (Object_keys (define k v o)).
Proof.
  intros Hnd. pose proof (keys_define k v o) as Hperm.
  destruct (hasOwn k o) eqn:Hown; rewrite Hperm; [done|].
  constructor; [|done]. rewrite <-hasOwn_elem_of. by rewrite Hown.
Qed.

Lemma wf_set k v o : wf o → wf (set k v o).
Proof. apply NoDup_keys_define. Qed.

Lemma wf_Object_assign t src : wf t → wf (Object_assign t src).
Proof.
  unfold Object_assign. revert t.
  induction src as [|[k v] src IH]; intros t Ht; simpl; [done|].
  apply IH. by apply wf_set.
Qed.

Lemma wf_copy_defaults conf confDefaults : wf conf → wf (copy_defaults conf confDefaults).
Proof.
  unfold copy_defaults. revert conf.
  induction confDefaults as [|[k v] l IH]; intros conf Hconf; simpl; [done|].
  apply IH. destruct (has_property k conf); simpl; [done|]. by apply wf_set.
Qed.

Lemma wf_parse_line env line env' :
  wf env → parse_line env line = Return env' → wf env'.
Proof.
  intros Henv. unfold parse_line.
  destruct (negb _); [by intros [= <-]|].
  destruct (exec RE_KeyValue line) as [g|]; [|done].
  destruct (truthy _); [intros [= <-]; by apply wf_set|].
  destruct (group "unQuotedValue" g); [|done].
  intros [= <-]. by apply wf_set.
Qed.

Lemma wf_parse_lines lines env env' :
  wf env → parse_lines env lines = Return env' → wf env'.
Proof.
  revert env. induction lines as [|line lines IH]; intros env Henv; simpl.
  - by intros [= <-].
  - destruct (parse_line env line) as [env1|] eqn:Hline; [|done].
    apply IH. by eapply wf_parse_line.
Qed.

Lemma wf_parse rawDotenv env : parse rawDotenv = Return env → wf env.
Proof. apply wf_parse_lines, wf_nil. Qed.

Lemma wf_parseFile D filepath env : parseFile D filepath = Return env → wf env.
Proof.
  unfold parseFile. destruct (negb _); [intros [= <-]; apply wf_nil|].
  destruct (files D filepath); [apply wf_parse|intros [= <-]; apply wf_nil|done].
Qed.

Lemma wf_parseFileAsync D filepath env : parseFileAsync D filepath = Return env → wf env.
Proof.
  unfold parseFileAsync.
  destruct (files D filepath); [apply wf_parse|intros [= <-]; apply wf_nil|done].
Qed.

(** ** The overlay of safe mode *)

Lemma get_Object_assign k t src :
  NoDup (Object_keys src) →
  get k (Object_assign t src) =
  match get k src with Some v => Some v | None => get k t end.
Proof.
  unfold Object_assign. revert t.
  induction src as [|[k1 v1] src IH]; intros t Hnd; simpl; [done|].
  rewrite Object_keys_cons in Hnd. apply NoDup_cons in Hnd as [Hk1 Hnd].
  rewrite IH by done. rewrite get_set.
  destruct (decide (k1 = k)) as [->|Hne]; [|done].
  destruct (get k src) eqn:Hget; [|done].
  exfalso. apply Hk1, elem_of_keys_get. by rewrite Hget.
Qed.

Lemma toObject_spec (env : gmap string string) :
  NoDup (Object_keys (toObject env)) ∧ ∀ k, get k (toObject env) = env !! k.
Proof.
  unfold toObject.
  assert (Hgen : ∀ (l : list (string * string)) o,
            NoDup l.*1 → NoDup (Object_keys o) →
            NoDup (Object_keys (foldl (λ o e, define e.1 e.2 o) o l)) ∧
            ∀ k, get k (foldl (λ o e, define e.1 e.2 o) o l) =
                 match (list_to_map l : gmap string string) !! k with
                 | Some v => Some v
                 | None => get k o
                 end).
  { induction l as [|[k1 v1] l IH]; intros o Hl Ho; simpl.
    - split; [done|]. intros k. by rewrite lookup_empty.
    - apply NoDup_cons in Hl as [Hk1 Hl].
      destruct (IH (define k1 v1 o) Hl (NoDup_keys_define k1 v1 o Ho)) as [Hnd Hget].
      split; [done|]. intros k. rewrite Hget, get_define.
      destruct (decide (k1 = k)) as [->|Hne].
      + rewrite lookup_insert_eq.
        by rewrite (not_elem_of_list_to_map_1 (M := gmap string)).
      + by rewrite lookup_insert_ne. }
  destruct (Hgen (map_to_list env) [] (NoDup_fst_map_to_list env)) as [Hnd Hget].
  { constructor. }
  split; [done|]. intros k. rewrite Hget, list_to_map_to_list.
  by destruct (env !! k).
Qed.

Lemma get_confWithEnv (env : gmap string string) conf k :
  wf conf → get k (confWithEnv (toObject env) conf) = overlaid env conf k.
Proof.
  intros Hconf. destruct (toObject_spec env) as [Hnd Hget].
  unfold confWithEnv, overlaid.
  rewrite !get_Object_assign by done.
  rewrite Hget. destruct (get k conf); [done|]. by destruct (env !! k).
Qed.

Lemma elem_of_keys_removeEmptyValues k o :
  NoDup (Object_keys o) →
  k ∈ Object_keys (removeEmptyValues o) ↔ ∃ v, get k o = Some v ∧ nonempty v = true.
Proof.
  unfold removeEmptyValues.
  induction o as [|[k1 v1] o IH]; intros Hnd; simpl.
  - split; [by intros ?%elem_of_nil|by intros (? & ? & ?)].
  - rewrite Object_keys_cons in Hnd. apply NoDup_cons in Hnd as [Hk1 Hnd].
    specialize (IH Hnd).
    assert (Hfresh : k1 = k → ¬ k ∈ Object_keys (List.filter (λ e, nonempty e.2) o)).
    { intros -> Hin. apply IH in Hin as (v & Hv & _).
      apply Hk1, elem_of_keys_get. by rewrite Hv. }
    destruct (nonempty v1) eqn:Hv1; simpl.
    + rewrite Object_keys_cons, elem_of_cons, IH.
      destruct (decide (k1 = k)) as [->|Hne].
      * split; [by exists v1|by left].
      * split; [by intros [?|?]|by right].
    + rewrite IH. destruct (decide (k1 = k)) as [->|Hne]; [|done].
      split.
      * intros Hin. exfalso. apply (Hfresh eq_refl). by apply IH.
      * intros (v & [= <-] & Hv). congruence.
Qed.

Lemma assertSafe_spec conf confExample allow (env : gmap string string) :
  wf conf →
  assertSafe conf confExample allow env =
  (match missing_keys env conf confExample allow with
   | [] => Return ()
   | missing => Throw (MissingEnvVarsError (errorMessage missing allow))
   end, env).
Proof.
  intros Hnd. unfold assertSafe. unfold_M.
  set (ov := confWithEnv (toObject env) conf).
  assert (Hov : NoDup (Object_keys ov)).
  { apply wf_Object_assign, wf_Object_assign, wf_nil. }
  assert (Hmissing :
    difference (Object_keys confExample)
      (Object_keys (if allow then ov else removeEmptyValues ov)) =
    missing_keys env conf confExample allow).
  { unfold difference, missing_keys, not_present. f_equal.
    apply List.filter_ext_in.
    intros k Hk%list_elem_of_In. f_equal.
    rewrite <-(get_confWithEnv env conf k) by done. fold ov.
    destruct allow.
    - pose proof (elem_of_keys_get k ov) as Hin.
      destruct (get k ov) as [v|]; simpl.
      + apply bool_decide_eq_true, Hin. by eexists.
      + apply bool_decide_eq_false. rewrite Hin. by intros [? ?].
    - pose proof (elem_of_keys_removeEmptyValues k ov Hov) as Hin.
      destruct (get k ov) as [v|]; simpl.
      + destruct (nonempty v) eqn:Hv.
        * apply bool_decide_eq_true, Hin. by exists v.
        * apply bool_decide_eq_false. rewrite Hin.
          intros (? & [= <-] & ?). congruence.
      + apply bool_decide_eq_false. rewrite Hin. by intros (? & ? & ?). }
  rewrite Hmissing. by destruct (missing_keys env conf confExample allow).
Qed.

(** ** Export into the process environment *)

Lemma export_key_eq conf key (env : gmap string string) :
  export_key conf key env =
  (Return (), match env !! key with
              | Some _ => env
              | None => <[key := default "undefined" (get key conf)]> env
              end).
Proof. unfold export_key. unfold_M. by destruct (env !! key). Qed.

Lemma for_in_cons key v (o : DotenvConfig) body (env : gmap string string) :
  for_in ((key, v) :: o) body env =
  match body key env with
  | (Return _, env') => for_in o body env'
  | (Throw e, env') => (Throw e, env')
  end.
Proof. done. Qed.

Lemma for_in_export conf0 (l : DotenvConfig) (env : gmap string string) :
  ∃ env', for_in l (export_key conf0) env = (Return (), env') ∧
    ∀ k, env' !! k =
         match env !! k with
         | Some v => Some v
         | None => if bool_decide (k ∈ Object_keys l)
                   then Some (default "undefined" (get k conf0)) else None
         end.
Proof.
  revert env. induction l as [|[k1 v1] l IH]; intros env.
  - exists env. split; [done|]. intros k. by destruct (env !! k).
  - rewrite for_in_cons, export_key_eq.
    destruct (env !! k1) as [w|] eqn:Hk1.
    + destruct (IH env) as (env' & -> & Henv'). exists env'. split; [done|].
      intros k. rewrite Henv'. destruct (env !! k) eqn:Hk; [done|].
      assert (k ≠ k1) by congruence.
      by rewrite Object_keys_cons, bool_decide_cons_ne.
    + destruct (IH (<[k1 := default "undefined" (get k1 conf0)]> env))
        as (env' & -> & Henv').
      exists env'. split; [done|]. intros k. rewrite Henv', Object_keys_cons.
      destruct (decide (k1 = k)) as [->|Hne].
      * rewrite lookup_insert_eq, Hk1. rewrite bool_decide_true; [done|].
        apply elem_of_cons. by left.
      * rewrite lookup_insert_ne by done. destruct (env !! k); [done|].
        by rewrite bool_decide_cons_ne.
Qed.

(** The environment after exporting [conf]. *)
Lemma export_lookup conf (env : gmap string string) :
  ∃ env', for_in conf (export_key conf) env = (Return (), env') ∧
    ∀ k, env' !! k = match env !! k with Some v => Some v | None => get k conf end.
Proof.
  destruct (for_in_export conf conf env) as (env' & Heq & Hl).
  exists env'. split; [done|]. intros k. rewrite Hl.
  destruct (env !! k); [done|]. case_bool_decide as Hin.
  - apply elem_of_keys_get in Hin as [v ->]. done.
  - destruct (get k conf) eqn:Hg; [|done]. exfalso. apply Hin.
    apply elem_of_keys_get. by rewrite Hg.
Qed.

Lemma assertSafe_env conf confExample allow (env : gmap string string) :
  (assertSafe conf confExample allow env).2 = env.
Proof.
  unfold assertSafe. unfold_M. simpl. by destruct (Nat.ltb _ _).
Qed.

Ltac load_steps_tac read :=
  intros; unfold load_steps; unfold_M;
  match goal with
  | |- context [read ?D (o_path ?o)] =>
      destruct (read D (o_path o)) as [?conf0|]; [|done];
      destruct (nonempty (o_defaults o));
      [destruct (read D (o_defaults o)) as [?confDefaults|]; [|done]|];
      (destruct (o_safe o);
       [destruct (read D (o_example o)) as [?confExample|]; [|done];
        match goal with
        | |- context [assertSafe ?c ?ex ?al ?env] =>
            let Henv := fresh in
            pose proof (assertSafe_env c ex al env) as Henv;
            destruct (assertSafe c ex al env) as [[[]|] ?env2];
            simpl in Henv; subst; [|done]
        end|]);
      (destruct (o_export o); [|done]);
      match goal with
      | |- context [for_in ?c (export_key ?c) ?env] =>
          by destruct (export_lookup c env) as (? & -> & _)
      end
  end.

Lemma configSync_steps D options (env : gmap string string) :
  configSync D options env =
  load_steps (parseFile D) (spread defaultConfigOptions options) env.
Proof. unfold configSync. load_steps_tac parseFile. Qed.

Lemma config_steps D options (env : gmap string string) :
  config D options env =
  load_steps (parseFileAsync D) (spread defaultConfigOptions options) env.
Proof. unfold config. load_steps_tac parseFileAsync. Qed.

Lemma loads_steps load read D options (env : gmap string string) :
  (load, read) ∈ loads →
  load D options env = load_steps (read D) (spread defaultConfigOptions options) env.
Proof.
  unfold loads. intros Hin.
  apply elem_of_cons in Hin as [[= -> ->]|Hin];
    [|apply list_elem_of_singleton in Hin as [= -> ->]].
  - apply configSync_steps.
  - apply config_steps.
Qed.

Lemma load_steps_effect read o (env : gmap string string) :
  load_effect o env (load_steps read o env).
Proof.
  unfold load_effect, load_steps.
  destruct (read (o_path o)) as [conf0|]; [|done].
  destruct (if nonempty (o_defaults o) then _ else _) as [conf|]; [|done].
  destruct (if o_safe o then _ else _); [|done]. simpl.
  destruct (o_export o); [|done].
  by destruct (export_lookup conf env) as (env' & -> & Hl).
Qed.

Lemma configSync_effect D options env :
  load_effect (spread defaultConfigOptions options) env (configSync D options env).
Proof. rewrite configSync_steps. apply load_steps_effect. Qed.

Lemma config_effect D options env :
  load_effect (spread defaultConfigOptions options) env (config D options env).
Proof. rewrite config_steps. apply load_steps_effect. Qed.

(** ** The two loads and their sources *)

Lemma read_wf load read D :
  (load, read) ∈ loads → ∀ p c, read D p = Return c → wf c.
Proof.
  unfold loads. intros Hin.
  apply elem_of_cons in Hin as [[= -> ->]|Hin];
    [|apply list_elem_of_singleton in Hin as [= -> ->]].
  - apply wf_parseFile.
  - apply wf_parseFileAsync.
Qed.

Lemma configSync_in_loads : (configSync, parseFile) ∈ loads.
Proof. unfold loads. apply elem_of_cons. by left. Qed.

Lemma config_in_loads : (config, parseFileAsync) ∈ loads.
Proof. unfold loads. apply elem_of_cons. right. by apply list_elem_of_singleton. Qed.

Lemma elem_of_not_present (env : gmap string string) conf confExample allow k :
  k ∈ not_present env conf confExample allow ↔
  k ∈ Object_keys confExample ∧ is_present allow (overlaid env conf k) = false.
Proof.
  unfold not_present. rewrite list_elem_of_In, List.filter_In, <-list_elem_of_In.
  by rewrite negb_true_iff.
Qed.

Lemma elem_of_missing_keys (env : gmap string string) conf confExample allow k :
  k ∈ missing_keys env conf confExample allow ↔
  k ∈ Object_keys confExample ∧ is_present allow (overlaid env conf k) = false.
Proof.
  unfold missing_keys. rewrite merge_sort_Permutation. apply elem_of_not_present.
Qed.

Lemma missing_keys_nil (env : gmap string string) conf confExample allow :
  missing_keys env conf confExample allow = [] ↔
  ∀ k, k ∈ Object_keys confExample → is_present allow (overlaid env conf k) = true.
Proof.
  split.
  - intros Hnil k Hk. destruct (is_present _ _) eqn:Hp; [done|].
    assert (Hin : k ∈ missing_keys env conf confExample allow)
      by (by apply elem_of_missing_keys).
    rewrite Hnil in Hin. by apply elem_of_nil in Hin.
  - intros Hall. destruct (missing_keys _ _ _ _) as [|k l] eqn:Hm; [done|].
    assert (Hin : k ∈ missing_keys env conf confExample allow)
      by (rewrite Hm; by left).
    apply elem_of_missing_keys in Hin as [Hk Hp]. by rewrite Hall in Hp.
Qed.

Lemma parseFileAsync_files D D' filepath :
  files D filepath = files D' filepath →
  parseFileAsync D filepath = parseFileAsync D' filepath.
Proof. unfold parseFileAsync. by intros ->. Qed.

Lemma parseFile_files D D' filepath :
  readFileSync_is_function D = readFileSync_is_function D' →
  files D filepath = files D' filepath →
  parseFile D filepath = parseFile D' filepath.
Proof. unfold parseFile. by intros -> ->. Qed.

Lemma load_steps_reads read read' o (env : gmap string string) :
  (∀ filepath, is_source o filepath → read filepath = read' filepath) →
  load_steps read o env = load_steps read' o env.
Proof.
  intros Hread. unfold load_steps, is_source in *.
  rewrite <-(Hread (o_path o)) by (by left).
  destruct (read (o_path o)) as [conf0|]; [|done].
  assert (Hd : (if nonempty (o_defaults o) then
             match read (o_defaults o) with
             | Return confDefaults => Return (copy_defaults conf0 confDefaults)
             | Throw e => Throw e
             end
           else Return conf0) =
          (if nonempty (o_defaults o) then
             match read' (o_defaults o) with
             | Return confDefaults => Return (copy_defaults conf0 confDefaults)
             | Throw e => Throw e
             end
           else Return conf0)).
  { destruct (nonempty (o_defaults o)) eqn:Hne; [|done].
    rewrite <-(Hread (o_defaults o)); [done|]. right. by left. }
  rewrite <-Hd.
  destruct (if nonempty (o_defaults o) then _ else _) as [conf|]; [|done].
  destruct (o_safe o) eqn:Hsafe; [|done].
  rewrite <-(Hread (o_example o)); [done|]. right. by right.
Qed.

(** ** The environment across a load *)

(** C3: a key defined in the process environment before [configSync] or
    [config] keeps its value, whatever the merged map binds it to; a key
    whose value differs after the call was absent before it. *)
Theorem export_keeps_defined_keys D options (env : gmap string string) key value :
  env !! key = Some value →
  ((configSync D options env).2 !! key = Some value ∧
   (config D options env).2 !! key = Some value) ∧
  (∀ k, (configSync D options env).2 !! k ≠ env !! k → env !! k = None) ∧
  (∀ k, (config D options env).2 !! k ≠ env !! k → env !! k = None).
Proof.
  intros Hkey.
  assert (Hframe : ∀ out, load_effect (spread defaultConfigOptions options) env out →
            ∀ k v, env !! k = Some v → out.2 !! k = Some v).
  { intros out Hout k v Hk. unfold load_effect in Hout.
    destruct (out.1); [|by rewrite Hout].
    destruct (o_export _); [|by rewrite Hout]. by rewrite Hout, Hk. }
  pose proof (Hframe _ (configSync_effect D options env)) as Hs.
  pose proof (Hframe _ (config_effect D options env)) as Ha.
  split; [by split; [apply Hs|apply Ha]|].
  split; intros k Hdiff; destruct (env !! k) as [v|] eqn:Hk; try done;
    exfalso; apply Hdiff; [by apply Hs|by apply Ha].
Qed.

Lemma export_keeps_defined_keys_witness :
  (configSync D_A1 export_true env_A_old).1 = Return [("A", "1")] ∧
  (configSync D_A1 export_true env_A_old).2 !! "A" = Some "old" ∧
  (config D_A1 export_true env_A_old).2 !! "A" = Some "old".
Proof.
  split; [vm_compute; reflexivity|].
  apply (export_keeps_defined_keys D_A1 export_true env_A_old "A" "old").
  vm_compute; reflexivity.
Defined.

(** C10: for [configSync] and for [config], a load whose [export] is off,
    or that throws, leaves the process environment as it was; a load that
    returns with [export] on leaves every name that had a value with that
    value, and gives a name that had none the value the returned map binds
    it to, if any. *)
Theorem load_frame D options (env : gmap string string) :
  let o := spread defaultConfigOptions options in
  let frame (out : result DotenvConfig * gmap string string) : Prop :=
    (o_export o = false → out.2 = env) ∧
    (∀ e, out.1 = Throw e → out.2 = env) ∧
    (∀ conf, out.1 = Return conf → o_export o = true →
       ∀ k, out.2 !! k =
            match env !! k with Some v => Some v | None => get k conf end) in
  frame (configSync D options env) ∧ frame (config D options env).
Proof.
  intros o frame.
  assert (Hframe : ∀ out, load_effect o env out → frame out).
  { intros out Hout. unfold load_effect in Hout. subst frame. cbv beta.
    destruct (out.1) as [conf|e].
    - destruct (o_export o); (split; [|split]); try done.
      by intros conf' [= <-] _.
    - split; [done|]. split; [done|]. by intros conf. }
  split; apply Hframe; [apply configSync_effect|apply config_effect].
Qed.

(** ** Blocking and non-blocking loads *)

Lemma parseFile_parseFileAsync D filepath :
  readFileSync_is_function D = true → parseFile D filepath = parseFileAsync D filepath.
Proof. unfold parseFile. by intros ->. Qed.

Lemma parseFile_not_function D filepath :
  readFileSync_is_function D = false → parseFile D filepath = Return [].
Proof. unfold parseFile. by intros ->. Qed.

(** C9, as stated, fails where [Deno.readFileSync] is not a function: the
    blocking load reads nothing, the non-blocking one reads [.env]. *)
Lemma configSync_config_differ :
  configSync D_deploy no_options ∅ = (Return [], ∅) ∧
  config D_deploy no_options ∅ = (Return [("A", "1")], ∅).
Proof. split; vm_compute; reflexivity. Qed.

(** C9, amended: where [Deno.readFileSync] is a function, [configSync] and
    [config] give the same map or the same error and the same environment.
    Where it is not, [parseFile] gives the empty map for every path, whatever
    the file holds and whether or not it can be read, so that [configSync]
    does what [config] does on a platform without any file; [config] reads
    its sources either way. *)
Theorem configSync_config D options (env : gmap string string) :
  (readFileSync_is_function D = true →
   configSync D options env = config D options env) ∧
  (readFileSync_is_function D = false →
   (∀ filepath, parseFile D filepath = Return []) ∧
   configSync D options env = config D_empty options env) ∧
  (∀ b, config {| files := files D; readFileSync_is_function := b |} options env =
        config D options env).
Proof.
  split; [|split].
  - intros HD. unfold configSync, config.
    by rewrite !(parseFile_parseFileAsync D) by done.
  - intros HD. split; [intros filepath; by apply parseFile_not_function|].
    rewrite configSync_steps, config_steps. apply load_steps_reads.
    intros filepath _. by rewrite parseFile_not_function.
  - done.
Qed.

Lemma configSync_config_witness :
  configSync D_A1 export_true env_A_old = config D_A1 export_true env_A_old ∧
  configSync D_deploy no_options ∅ = config D_empty no_options ∅.
Proof.
  split.
  - apply (proj1 (configSync_config D_A1 export_true env_A_old)). reflexivity.
  - apply (proj1 (proj2 (configSync_config D_deploy no_options ∅))). reflexivity.
Defined.

(** ** Sources that do not exist, and reads that fail *)

(** C8, as stated, fails when the defaults file exists: [configSync({})]
    without a [.env] file then returns the defaults. *)
Lemma configSync_without_env_not_empty :
  files D_only_defaults ".env" = NotFound ∧
  configSync D_only_defaults no_options ∅ = (Return [("A", "1")], ∅).
Proof. split; vm_compute; reflexivity. Qed.

Lemma parseFile_not_found_empty D D' filepath :
  readFileSync_is_function D' = readFileSync_is_function D →
  files D' filepath =
    match files D filepath with NotFound => Data "" | r => r end →
  parseFile D filepath = parseFile D' filepath ∧
  parseFileAsync D filepath = parseFileAsync D' filepath.
Proof.
  intros Hf Hfiles. unfold parseFile, parseFileAsync. rewrite Hf, Hfiles.
  destruct (files D filepath); by destruct (readFileSync_is_function D).
Qed.

Lemma load_steps_throws_at read o (env : gmap string string) e :
  (read (o_path o) = Throw e → load_steps read o env = (Throw e, env)) ∧
  (∀ conf0, read (o_path o) = Return conf0 → nonempty (o_defaults o) = true →
     read (o_defaults o) = Throw e → load_steps read o env = (Throw e, env)) ∧
  (∀ conf0, read (o_path o) = Return conf0 →
     (nonempty (o_defaults o) = true →
      ∃ confDefaults, read (o_defaults o) = Return confDefaults) →
     o_safe o = true → read (o_example o) = Throw e →
     load_steps read o env = (Throw e, env)).
Proof.
  unfold load_steps. split; [by intros ->|]. split.
  - intros conf0 -> -> ->. done.
  - intros conf0 -> Hd -> ->.
    destruct (nonempty (o_defaults o)); [|done].
    by destruct (Hd eq_refl) as [confDefaults ->].
Qed.

(** C8, amended: a source that does not exist parses to the empty map, and
    a load does with it what it does with an empty file; [configSync({})]
    and [config({})] return the empty map when neither [.env] nor
    [.env.defaults] exists. A read that fails otherwise throws the error of
    the read, except that [parseFile] gives the empty map where
    [Deno.readFileSync] is not a function; and a load throws what the first
    of its sources that does not read or parse throws, be it the primary
    source, the defaults or the example, and leaves the environment as it
    was. *)
Theorem missing_source_is_empty D :
  (∀ filepath, files D filepath = NotFound →
     parseFile D filepath = Return [] ∧ parseFileAsync D filepath = Return []) ∧
  (∀ D' options (env : gmap string string),
     readFileSync_is_function D' = readFileSync_is_function D →
     (∀ filepath, files D' filepath =
        match files D filepath with NotFound => Data "" | r => r end) →
     configSync D options env = configSync D' options env ∧
     config D options env = config D' options env) ∧
  (∀ env : gmap string string,
     files D ".env" = NotFound → files D ".env.defaults" = NotFound →
     configSync D no_options env = (Return [], env) ∧
     config D no_options env = (Return [], env)) ∧
  (∀ filepath e, files D filepath = Failed e →
     parseFileAsync D filepath = Throw (DenoError e) ∧
     (readFileSync_is_function D = true →
      parseFile D filepath = Throw (DenoError e)) ∧
     (readFileSync_is_function D = false → parseFile D filepath = Return [])) ∧
  (readFileSync_is_function D = false →
   ∀ filepath, parseFile D filepath = Return []) ∧
  (∀ options (env : gmap string string) e,
     files D (o_path (spread defaultConfigOptions options)) = Failed e →
     config D options env = (Throw (DenoError e), env) ∧
     (readFileSync_is_function D = true →
      configSync D options env = (Throw (DenoError e), env))) ∧
  (∀ load read options (env : gmap string string) e,
     (load, read) ∈ loads →
     let o := spread defaultConfigOptions options in
     (read D (o_path o) = Throw e → load D options env = (Throw e, env)) ∧
     (∀ conf0, read D (o_path o) = Return conf0 →
        nonempty (o_defaults o) = true → read D (o_defaults o) = Throw e →
        load D options env = (Throw e, env)) ∧
     (∀ conf0, read D (o_path o) = Return conf0 →
        (nonempty (o_defaults o) = true →
         ∃ confDefaults, read D (o_defaults o) = Return confDefaults) →
        o_safe o = true → read D (o_example o) = Throw e →
        load D options env = (Throw e, env))).
Proof.
  split; [|split; [|split; [|split; [|split; [|split]]]]].
  - intros filepath Hf. unfold parseFile, parseFileAsync. rewrite Hf.
    by destruct (readFileSync_is_function D).
  - intros D' options env Hf Hfiles.
    rewrite !configSync_steps, !config_steps.
    split; apply load_steps_reads; intros filepath _;
      by apply parseFile_not_found_empty.
  - intros env H1 H2. unfold configSync, config, parseFile, parseFileAsync.
    simpl. rewrite H1, H2. by destruct (readFileSync_is_function D).
  - intros filepath e Hf. unfold parseFile, parseFileAsync. rewrite Hf.
    split; [done|]. split; by intros ->.
  - intros HD filepath. by apply parseFile_not_function.
  - intros options env e Hf. unfold configSync, config, parseFile, parseFileAsync.
    rewrite Hf. split; [done|]. by intros ->.
  - intros load read options env e Hin o.
    rewrite (loads_steps load read) by done. fold o.
    apply load_steps_throws_at.
Qed.

Lemma missing_source_is_empty_witness :
  configSync D_empty no_options ∅ = (Return [], ∅) ∧
  config D_empty no_options ∅ = (Return [], ∅).
Proof.
  apply (proj1 (proj2 (proj2 (missing_source_is_empty D_empty))) ∅); reflexivity.
Defined.

(** ** Safe mode and what a load throws *)

Lemma parse_lines_throws lines env e :
  parse_lines env lines = Throw e → e = TypeError.
Proof.
  revert env. induction lines as [|line lines IH]; intros env; simpl; [done|].
  destruct (parse_line env line) as [env1|e1] eqn:Hline; [apply IH|].
  intros [= <-]. unfold parse_line in Hline.
  destruct (negb _); [done|].
  destruct (exec RE_KeyValue line) as [g|]; [|congruence].
  destruct (truthy _); [done|].
  destruct (group "unQuotedValue" g); [done|congruence].
Qed.

Lemma parseFileAsync_throws D filepath e :
  parseFileAsync D filepath = Throw e → e = TypeError ∨ ∃ e', e = DenoError e'.
Proof.
  unfold parseFileAsync. destruct (files D filepath) as [text| |e']; [|done|].
  - intros ?%parse_lines_throws. by left.
  - intros [= <-]. right. by eexists.
Qed.

Lemma parseFile_throws D filepath e :
  parseFile D filepath = Throw e → e = TypeError ∨ ∃ e', e = DenoError e'.
Proof.
  unfold parseFile. destruct (negb _); [done|]. apply parseFileAsync_throws.
Qed.

Lemma load_export_off load read D options b (env : gmap string string) :
  (load, read) ∈ loads →
  (load D (with_export b options) env).1 = (load D (with_export false options) env).1.
Proof.
  intros Hin. rewrite !(loads_steps load read) by done.
  unfold load_steps. simpl.
  destruct (read D _) as [conf0|]; [|done].
  match goal with
  | |- context [if nonempty ?d then ?x else ?y] =>
      destruct (if nonempty d then x else y) as [conf|]; [|done]
  end.
  match goal with
  | |- context [if default false (safe options) then ?x else ?y] =>
      by destruct (if default false (safe options) then x else y)
  end.
Qed.

(** C1, as stated, fails: on a key both the environment and the file-derived
    map bind, the overlay holds the value of the file-derived map, and the
    load throws for a key the environment binds to a non-empty value. *)
Lemma overlay_prefers_file_value :
  env_K !! "K" = Some "v" ∧
  get "K" (confWithEnv (toObject env_K) [("K", "")]) = Some "" ∧
  (configSync D_K_empty safe_true env_K).1 =
    Throw (MissingEnvVarsError (errorMessage ["K"] false)).
Proof. repeat split; vm_compute; reflexivity. Qed.

(** C1, amended: the overlay safe mode checks binds a name to the value of
    the merged file-derived map where that map binds it, and to the value of
    the process environment otherwise; the check passes exactly when every
    key of the example map is present in that overlay; and what a load
    returns or throws does not depend on [export]. *)
Theorem overlay_of_safe_mode (env : gmap string string) conf :
  wf conf →
  (∀ k, get k (confWithEnv (toObject env) conf) = overlaid env conf k) ∧
  (∀ confExample allow,
     (assertSafe conf confExample allow env).1 = Return () ↔
     ∀ k, k ∈ Object_keys confExample →
          is_present allow (overlaid env conf k) = true) ∧
  (∀ D options b,
     (configSync D (with_export b options) env).1 =
       (configSync D (with_export (negb b) options) env).1 ∧
     (config D (with_export b options) env).1 =
       (config D (with_export (negb b) options) env).1).
Proof.
  intros Hwf. split; [|split].
  - intros k. by apply get_confWithEnv.
  - intros confExample allow. rewrite assertSafe_spec by done.
    rewrite <-missing_keys_nil. simpl.
    by destruct (missing_keys env conf confExample allow).
  - intros D options b. split.
    + rewrite (load_export_off configSync parseFile D options b),
        (load_export_off configSync parseFile D options (negb b)); [done|..];
        apply configSync_in_loads.
    + rewrite (load_export_off config parseFileAsync D options b),
        (load_export_off config parseFileAsync D options (negb b)); [done|..];
        apply config_in_loads.
Qed.

Lemma overlay_of_safe_mode_witness :
  get "K" (confWithEnv (toObject env_K) [("K", "")]) = overlaid env_K [("K", "")] "K".
Proof.
  assert (Hwf : wf [("K", "")]) by (by apply (bool_decide_unpack _)).
  apply (proj1 (overlay_of_safe_mode env_K [("K", "")] Hwf)).
Defined.

(** C2, as stated, fails with the overlay of the specification, in which
    the value of the environment wins: the environment binds [A] to a
    non-empty value, so every key of the example map is present in that
    overlay, and yet the load throws for [A], which [.env] binds to the
    empty string. *)
Lemma missing_with_environment_value :
  parseFileAsync D_A_empty ".env" = Return [("A", ""); ("B", "2")] ∧
  parseFileAsync D_A_empty ".env.example" = Return [("A", ""); ("B", "")] ∧
  forallb (λ k, is_present false
                  (match env_A_x !! k with
                   | Some v => Some v
                   | None => get k [("A", ""); ("B", "2")]
                   end))
          (Object_keys [("A", ""); ("B", "")]) = true ∧
  (config D_A_empty safe_true env_A_x).1 =
    Throw (MissingEnvVarsError (errorMessage ["A"] false)).
Proof. repeat split; vm_compute; reflexivity. Qed.

Lemma errorMessage_eq missing allow :
  errorMessage missing allow =
  "The following variables were defined in the example file but are not present in the environment:"
  +:+ String LF "  " +:+ join ", " missing
  +:+ String LF (String LF "") +:+ "Make sure to add them to your env file."
  +:+ (if allow then ""
       else String LF (String LF "")
            +:+ "If you expect any of these variables to be empty, you can set the allowEmptyValues option to true.").
Proof.
  unfold errorMessage. destruct allow; cbn [negb omap list_omap id join].
  - by rewrite app_nil_r, !app_assoc.
  - by rewrite !app_assoc.
Qed.

(** C2, amended: with [safe] on and the sources read and parsed, a load
    throws [MissingEnvVarsError] exactly when some key of the example map is
    not present in the overlay, in which the value of the merged
    file-derived map wins over the one of the environment (present: bound
    at all with [allowEmptyValues], bound to a non-empty string without);
    the error carries a message that lists exactly those keys, sorted and
    separated by commas, after its first sentence and before the hints, the
    second hint only without [allowEmptyValues]; reading and parsing a
    source never throws that error. *)
Theorem safe_mode_missing_keys load read D options (env : gmap string string)
    conf0 confDefaults confExample :
  let o := spread defaultConfigOptions options in
  let conf := if nonempty (o_defaults o)
              then copy_defaults conf0 confDefaults else conf0 in
  let missing := missing_keys env conf confExample (o_allowEmptyValues o) in
  (load, read) ∈ loads →
  o_safe o = true →
  read D (o_path o) = Return conf0 →
  (nonempty (o_defaults o) = true → read D (o_defaults o) = Return confDefaults) →
  read D (o_example o) = Return confExample →
  (∀ k, k ∈ missing ↔
        k ∈ Object_keys confExample ∧
        is_present (o_allowEmptyValues o) (overlaid env conf k) = false) ∧
  StronglySorted String.le missing ∧
  (load D options env).1 =
    match missing with
    | [] => Return conf
    | _ => Throw (MissingEnvVarsError (errorMessage missing (o_allowEmptyValues o)))
    end ∧
  errorMessage missing (o_allowEmptyValues o) =
    "The following variables were defined in the example file but are not present in the environment:"
    +:+ String LF "  " +:+ join ", " missing
    +:+ String LF (String LF "") +:+ "Make sure to add them to your env file."
    +:+ (if o_allowEmptyValues o then ""
         else String LF (String LF "")
              +:+ "If you expect any of these variables to be empty, you can set the allowEmptyValues option to true.") ∧
  (∀ filepath message, read D filepath ≠ Throw (MissingEnvVarsError message)).
Proof.
  intros o conf missing Hin Hsafe Hpath Hdefaults Hexample.
  split; [intros k; apply elem_of_missing_keys|].
  split; [apply StronglySorted_merge_sort; apply _|].
  split; [|split; [apply errorMessage_eq|]].
  - pose proof (read_wf load read D Hin) as Hwf.
    rewrite (loads_steps load read) by done. fold o.
    unfold load_steps. rewrite Hpath, Hsafe, Hexample.
    assert (Hconf : (if nonempty (o_defaults o) then
               match read D (o_defaults o) with
               | Return confDefaults => Return (copy_defaults conf0 confDefaults)
               | Throw e => Throw e
               end
             else Return conf0) = Return conf).
    { subst conf. destruct (nonempty (o_defaults o)); [|done].
      by rewrite Hdefaults. }
    rewrite Hconf, assertSafe_spec.
    + fold missing. by destruct missing.
    + subst conf. destruct (nonempty (o_defaults o)); [|by eapply Hwf].
      apply wf_copy_defaults. by eapply Hwf.
  - intros filepath message Hthrow. unfold loads in Hin.
    apply elem_of_cons in Hin as [[= -> ->]|Hin];
      [|apply list_elem_of_singleton in Hin as [= -> ->]].
    + by apply parseFile_throws in Hthrow as [?|[? ?]].
    + by apply parseFileAsync_throws in Hthrow as [?|[? ?]].
Qed.

Lemma safe_mode_missing_keys_witness :
  (configSync D_three safe_true env_H).1 =
    Throw (MissingEnvVarsError (errorMessage ["C"; "Z"] false)) ∧
  errorMessage ["C"; "Z"] false =
    "The following variables were defined in the example file but are not present in the environment:"
    +:+ String LF "  C, Z" +:+ String LF (String LF "")
    +:+ "Make sure to add them to your env file." +:+ String LF (String LF "")
    +:+ "If you expect any of these variables to be empty, you can set the allowEmptyValues option to true.".
Proof.
  pose proof (safe_mode_missing_keys configSync parseFile D_three safe_true env_H
                [("A", "1"); ("C", "")] [("B", "3")]
                [("Z", ""); ("A", ""); ("C", ""); ("H", "")]) as H.
  destruct H as (_ & _ & Hload & Hmsg & _).
  - apply configSync_in_loads.
  - reflexivity.
  - vm_compute. reflexivity.
  - intros _. vm_compute. reflexivity.
  - vm_compute. reflexivity.
  - split; [exact Hload|exact Hmsg].
Defined.

(** ** Defaults *)

(** C4 at the input where the code departs from it: [toString] is a key of
    the defaults map and not of the primary map, and [key in conf] finds it
    on [Object.prototype], so it is not copied. *)
Lemma defaults_skip_inherited_name :
  parseFile D_toString "d" = Return [("toString", "1")] ∧
  parseFile D_toString ".env" = Return [] ∧
  configSync D_toString defaults_d ∅ = (Return [], ∅) ∧
  config D_toString defaults_d ∅ = (Return [], ∅).
Proof. repeat split; vm_compute; reflexivity. Qed.

Lemma defaults_example :
  configSync D_A1_d defaults_d ∅ = (Return [("A", "1"); ("B", "3")], ∅).
Proof. vm_compute; reflexivity. Qed.

(** Outside the names of [Object.prototype], the loop copies every key of
    the defaults map that the primary map lacks, and it never changes a key
    of the primary map. *)
Lemma get_copy_defaults conf confDefaults k :
  k ∉ Object_prototype →
  get k (copy_defaults conf confDefaults) =
  match get k conf with Some v => Some v | None => get k confDefaults end.
Proof.
  intros Hk. unfold copy_defaults. revert conf.
  induction confDefaults as [|[k1 v1] l IH]; intros conf; simpl.
  - by destruct (get k conf).
  - rewrite IH. destruct (decide (k1 = k)) as [->|Hne].
    + unfold has_property. rewrite (bool_decide_eq_false_2 _ Hk), orb_false_r.
      unfold hasOwn. destruct (get k conf) eqn:Hget; simpl; [by rewrite Hget|].
      by rewrite get_set, decide_True.
    + destruct (negb _); [|done]. rewrite get_set.
      by repeat case_decide.
Qed.

Lemma get_copy_defaults_own conf confDefaults k v :
  get k conf = Some v → get k (copy_defaults conf confDefaults) = Some v.
Proof.
  unfold copy_defaults. revert conf.
  induction confDefaults as [|[k1 v1] l IH]; intros conf Hget; simpl; [done|].
  apply IH. destruct (decide (k1 = k)) as [->|Hne].
  - unfold has_property, hasOwn. by rewrite Hget.
  - destruct (negb _); [|done]. rewrite get_set. by repeat case_decide.
Qed.

(** X2: the loop over the defaults never changes a key of the primary map, and
    outside the property names of [Object.prototype] it copies every key of
    the defaults map that the primary map lacks. *)
Theorem defaults_merge conf confDefaults k :
  k ∉ Object_prototype →
  get k (copy_defaults conf confDefaults) =
    match get k conf with Some v => Some v | None => get k confDefaults end ∧
  (∀ k' v, get k' conf = Some v → get k' (copy_defaults conf confDefaults) = Some v).
Proof.
  intros Hk. split; [by apply get_copy_defaults|].
  intros k' v. apply get_copy_defaults_own.
Qed.

Lemma defaults_merge_witness :
  get "B" (copy_defaults [("A", "1")] [("A", "2"); ("B", "3")]) = Some "3".
Proof.
  assert (H : "B" ∉ Object_prototype) by (by apply (bool_decide_unpack _)).
  exact (proj1 (defaults_merge [("A", "1")] [("A", "2"); ("B", "3")] "B" H)).
Defined.

(** ** Appending and scanning strings *)

Lemma length_app (s t : string) :
  String.length (s +:+ t) = String.length s + String.length t.
Proof. induction s as [|a s IH]; [done|]. rewrite app_cons. simpl. by rewrite IH. Qed.

Lemma prefix_of_app (s t : string) : prefix_of (String.length s) (s +:+ t) = s.
Proof. induction s as [|a s IH]; [by destruct t|]. rewrite app_cons. simpl. by rewrite IH. Qed.

Lemma consumed_app (s t : string) : consumed (s +:+ t) t = s.
Proof.
  unfold consumed. rewrite length_app.
  replace (String.length s + String.length t - String.length t)
    with (String.length s) by lia.
  apply prefix_of_app.
Qed.

Lemma take_drop_while p (s : string) : take_while p s +:+ drop_while p s = s.
Proof.
  induction s as [|a s IH]; [done|]. simpl.
  destruct (p a); [|done]. by rewrite app_cons, IH.
Qed.

Lemma all_app p (s t : string) : all p (s +:+ t) = all p s && all p t.
Proof.
  induction s as [|a s IH]; [done|]. rewrite app_cons. simpl.
  by rewrite IH, andb_assoc.
Qed.

Lemma drop_while_app p (s t : string) :
  all p s = true → drop_while p (s +:+ t) = drop_while p t.
Proof.
  induction s as [|a s IH]; [done|]. rewrite app_cons. simpl.
  intros [-> Hs]%andb_true_iff. auto.
Qed.

Lemma take_while_app p (s t : string) :
  all p s = true → take_while p (s +:+ t) = s +:+ take_while p t.
Proof.
  induction s as [|a s IH]; [done|]. rewrite app_cons. simpl.
  intros [-> Hs]%andb_true_iff. by rewrite app_cons, IH.
Qed.

Lemma drop_while_stop p (s : string) : head_is p s = false → drop_while p s = s.
Proof. destruct s as [|a s]; [done|]. simpl. by intros ->. Qed.

Lemma take_while_stop p (s : string) : head_is p s = false → take_while p s = "".
Proof. destruct s as [|a s]; [done|]. simpl. by intros ->. Qed.

Lemma head_is_drop_while p (s : string) : head_is p (drop_while p s) = false.
Proof.
  induction s as [|a s IH]; [done|]. simpl.
  destruct (p a) eqn:Ha; [done|]. simpl. by rewrite Ha.
Qed.

Lemma all_take_while p (s : string) : all p (take_while p s) = true.
Proof.
  induction s as [|a s IH]; [done|]. simpl.
  destruct (p a) eqn:Ha; [|done]. simpl. by rewrite Ha.
Qed.

Lemma all_impl (p q : ascii → bool) (s : string) :
  (∀ a, p a = true → q a = true) → all p s = true → all q s = true.
Proof.
  intros Hpq. induction s as [|a s IH]; [done|]. simpl.
  intros [Ha Hs]%andb_true_iff. by rewrite (Hpq a Ha), IH.
Qed.

(** ** Quantified character classes *)

Section Classes.
Context (body : string → groups → cont → option groups) (p : ascii → bool).
Hypothesis body_cons : ∀ a s g k,
  body (String a s) g k = if p a then k s g else None.
Hypothesis body_nil : ∀ g k, body "" g k = None.

Lemma star_loop_greedy k fuel s g :
  (String.length s ≤ fuel)%nat → star_loop body true k fuel s g = greedy p k s g.
Proof.
  revert fuel. induction s as [|a s IH]; intros fuel Hfuel.
  - destruct fuel; simpl; [done|]. by rewrite body_nil.
  - destruct fuel as [|fuel]; simpl in Hfuel; [lia|].
    simpl. rewrite body_cons. destruct (p a); [|done].
    rewrite (proj2 (Nat.ltb_lt _ _)) by lia. rewrite IH by lia. done.
Qed.

Lemma star_loop_lazy k fuel s g :
  (String.length s ≤ fuel)%nat → star_loop body false k fuel s g = lazy p k s g.
Proof.
  revert fuel. induction s as [|a s IH]; intros fuel Hfuel.
  - destruct fuel; simpl; [by destruct (k "" g)|].
    rewrite body_nil. by destruct (k "" g).
  - destruct fuel as [|fuel]; simpl in Hfuel; [lia|].
    simpl. rewrite body_cons. destruct (k (String a s) g); [done|].
    destruct (p a); [|done].
    rewrite (proj2 (Nat.ltb_lt _ _)) by lia. by rewrite IH by lia.
Qed.
End Classes.

Lemma m_star_greedy n0 p s g k :
  m n0 (Star true (Class p)) s g k = greedy p k s g.
Proof. simpl. by apply star_loop_greedy. Qed.

Lemma m_star_lazy n0 p s g k :
  m n0 (Star false (Class p)) s g k = lazy p k s g.
Proof. simpl. by apply star_loop_lazy. Qed.

Lemma m_star_greedy_alt n0 p q s g k :
  m n0 (Star true (Alt (Class p) (Class q))) s g k =
  greedy (λ c, p c || q c) k s g.
Proof.
  simpl. apply star_loop_greedy; [|done|done].
  intros a s0 g0 k0. simpl. destruct (p a), (q a), (k0 s0 g0); done.
Qed.

Lemma greedy_stop p k s g : head_is p s = false → greedy p k s g = k s g.
Proof. destruct s as [|a s]; [done|]. simpl. by intros ->. Qed.

Lemma greedy_drop_while p k s g x :
  k (drop_while p s) g = Some x → greedy p k s g = Some x.
Proof.
  induction s as [|a s IH]; [done|]. simpl.
  destruct (p a); [|done]. intros Hk. by rewrite IH.
Qed.

Lemma greedy_fails p (q : ascii → bool) k s g :
  (∀ t, head_is q t = false → k t g = None) →
  all (λ c, negb (q c)) s = true → greedy p k s g = None.
Proof.
  intros Hk. induction s as [|a s IH].
  - intros _. simpl. by apply Hk.
  - simpl. intros [Ha Hs]%andb_true_iff.
    assert (k (String a s) g = None) as ->.
    { apply Hk. simpl. by destruct (q a). }
    rewrite IH by done. by destruct (p a).
Qed.

Lemma greedy_last p k s c t g x :
  all p s = true → p c = true → greedy p k t g = None →
  k (String c t) g = Some x → greedy p k (s +:+ String c t) g = Some x.
Proof.
  intros Hs Hc Ht Hk. induction s as [|a s IH].
  - rewrite app_nil_l. simpl. by rewrite Hc, Ht.
  - rewrite app_cons. simpl. simpl in Hs. apply andb_true_iff in Hs as [-> Hs].
    by rewrite IH.
Qed.

Lemma lazy_skip p (w : ascii → bool) k s t g :
  (∀ u, head_is w u = true → k u g = None) →
  all (λ c, p c && w c) s = true → lazy p k (s +:+ t) g = lazy p k t g.
Proof.
  intros Hk. induction s as [|a s IH]; [done|].
  simpl. intros [[Hp Hw]%andb_true_iff Hs]%andb_true_iff.
  rewrite ?app_cons. simpl. rewrite Hk by done. by rewrite Hp, IH.
Qed.

Lemma lazy_now p k s g x : k s g = Some x → lazy p k s g = Some x.
Proof. destruct s; simpl; by intros ->. Qed.

(** ** Lines of the shape [KEY=...] *)

Ltac by_cases a := destruct a as [[] [] [] [] [] [] [] []]; done.

Lemma word_not_white_space a : is_word a = true → is_white_space a = false.
Proof. by_cases a. Qed.
Lemma word_not_eq a : is_word a = true → is_char "=" a = false.
Proof. by_cases a. Qed.
Lemma word_ident a : is_word a = true → is_ident_char a = true.
Proof. by_cases a. Qed.
Lemma letter_word a : is_letter_ a = true → is_word a = true.
Proof. by_cases a. Qed.
Lemma quote_not_CR a : is_quote a = true → not_CR a = true.
Proof. by_cases a. Qed.
Lemma space_white_space a : is_char " " a = true → is_white_space a = true.
Proof. by_cases a. Qed.
Lemma space_not_hash a : is_char " " a = true → not_hash a = true.
Proof. by_cases a. Qed.

Lemma m_seq n0 r1 r2 s g k :
  m n0 (Seq r1 r2) s g k = m n0 r1 s g (λ s1 g1, m n0 r2 s1 g1 k).
Proof. done. Qed.
Lemma m_alt n0 r1 r2 s g k :
  m n0 (Alt r1 r2) s g k =
  match m n0 r1 s g k with Some x => Some x | None => m n0 r2 s g k end.
Proof. done. Qed.
Lemma m_named n0 name r s g k :
  m n0 (Named name r) s g k =
  m n0 r s g (λ s1 g1, k s1 ((name, consumed s s1) :: g1)).
Proof. done. Qed.
Lemma m_class n0 p s g k :
  m n0 (Class p) s g k =
  match s with String a s' => if p a then k s' g else None | EmptyString => None end.
Proof. done. Qed.
Lemma m_bol n0 s g k :
  m n0 Bol s g k = if Nat.eqb (String.length s) n0 then k s g else None.
Proof. done. Qed.
Lemma m_class_cons n0 p a s g k :
  m n0 (Class p) (String a s) g k = if p a then k s g else None.
Proof. done. Qed.
Lemma m_class_fails n0 p s g k : head_is p s = false → m n0 (Class p) s g k = None.
Proof. destruct s as [|a s]; [done|]. simpl. by intros ->. Qed.

Lemma consumed_drop_while p (s : string) :
  consumed s (drop_while p s) = take_while p s.
Proof. rewrite <-(take_drop_while p s) at 1. apply consumed_app. Qed.

Lemma RE_KeyValue_parts :
  RE_KeyValue =
  Seq (Star true (Class is_white_space))
 (Seq (Named "key" (Plus false (Class (λ c, negb (is_white_space c))))) after_key).
Proof. done. Qed.

Lemma value_part_quoted n0 o q c tail g :
  is_quote o = true → is_quote c = true →
  all not_CR q = true → all not_quote tail = true →
  m n0 value_part (String o (q +:+ String c tail)) g final =
  Some (("quotedValue", q) :: g).
Proof.
  intros Ho Hc Hq Htail. unfold value_part.
  rewrite m_alt, m_seq, m_class_cons, Ho, m_seq, m_named, m_star_greedy_alt.
  erewrite greedy_last; [done|done|by apply quote_not_CR| |].
  - apply greedy_fails with (q := is_quote); [|done].
    intros t Ht. by apply m_class_fails.
  - rewrite m_class_cons, Hc. unfold final. by rewrite consumed_app.
Qed.

Lemma value_part_unquoted n0 v g :
  head_is is_quote v = false →
  m n0 value_part v g final =
  Some (("unQuotedValue", take_while not_hash v) :: g).
Proof.
  intros Hv. unfold value_part.
  rewrite m_alt, m_seq, m_class_fails by done.
  rewrite m_named, m_star_greedy.
  apply greedy_drop_while. unfold final. by rewrite consumed_drop_while.
Qed.

Lemma after_key_eq n0 w2 rest g x :
  all is_white_space w2 = true →
  m n0 value_part (drop_while (is_char " ") rest) g final = Some x →
  m n0 after_key (w2 +:+ String "=" rest) g final = Some x.
Proof.
  intros Hw2 Hx. unfold after_key.
  rewrite m_seq, m_star_greedy. apply greedy_drop_while.
  rewrite drop_while_app by done. simpl drop_while.
  rewrite m_seq, m_class_cons.
  change (is_char "=" "=") with true. cbv iota.
  rewrite m_seq, m_star_greedy. by apply greedy_drop_while.
Qed.

Lemma after_key_word n0 u g :
  head_is is_word u = true → m n0 after_key u g final = None.
Proof.
  destruct u as [|a u]; [done|]. simpl head_is. intros Ha. unfold after_key.
  rewrite m_seq, m_star_greedy, greedy_stop by (by apply word_not_white_space).
  by rewrite m_seq, m_class_cons, (word_not_eq a Ha).
Qed.

Lemma is_key_cons key :
  is_key key = true →
  ∃ a key', key = String a key' ∧ is_letter_ a = true ∧ all is_word key' = true.
Proof.
  unfold is_key. destruct key as [|a key']; [done|]. simpl.
  intros [Ha [_ Hkey]%andb_true_iff]%andb_true_iff. by exists a, key'.
Qed.

Lemma is_key_word key :
  is_key key = true → nonempty key = true ∧ all is_word key = true.
Proof.
  unfold is_key. destruct key as [|a key']; [done|].
  by intros [_ ?]%andb_true_iff.
Qed.

Lemma m_KeyValue n0 w1 key after g x :
  all is_white_space w1 = true →
  nonempty key = true → all is_word key = true →
  m n0 after_key after (("key", key) :: g) final = Some x →
  m n0 RE_KeyValue (w1 +:+ key +:+ after) g final = Some x.
Proof.
  intros Hw1 Hne Hkey Hx. destruct key as [|a key']; [done|].
  simpl in Hkey. apply andb_true_iff in Hkey as [Hw Hkey'].
  rewrite RE_KeyValue_parts, m_seq, m_star_greedy.
  apply greedy_drop_while. rewrite drop_while_app by done.
  rewrite drop_while_stop
    by (rewrite app_cons; simpl; by apply word_not_white_space).
  rewrite m_seq, m_named. unfold Plus. rewrite m_seq, app_cons, m_class_cons.
  rewrite (word_not_white_space a Hw). simpl negb. cbv iota.
  rewrite m_star_lazy.
  rewrite lazy_skip with (w := is_word).
  - apply lazy_now. rewrite <-app_cons. by rewrite consumed_app.
  - intros u Hu. by apply after_key_word.
  - eapply all_impl; [|done]. intros c Hc.
    by rewrite (word_not_white_space c Hc), Hc.
Qed.

Lemma exec_m r input g :
  m (String.length input) r input [] final = Some g → exec r input = Some g.
Proof. unfold exec, final. destruct input; simpl; by intros ->. Qed.

Lemma eq_not_ident_char : is_ident_char "=" = false.
Proof. done. Qed.

Lemma drop_while_before_eq w2 rest :
  all is_white_space w2 = true →
  drop_while is_white_space (drop_while is_ident_char (w2 +:+ String "=" rest)) =
  String "=" rest.
Proof.
  induction w2 as [|c w2 IH]; [done|]. simpl all.
  intros [Hc Hw2]%andb_true_iff. rewrite app_cons. simpl drop_while at 2.
  destruct (is_ident_char c); [by apply IH|].
  simpl drop_while. rewrite Hc. by rewrite drop_while_app.
Qed.

Lemma test_VariableStart w1 key w2 rest :
  all is_white_space w1 = true → is_key key = true →
  all is_white_space w2 = true →
  test RE_VariableStart (w1 +:+ key +:+ w2 +:+ String "=" rest) = true.
Proof.
  intros Hw1 (a & key' & -> & Ha & Hkey')%is_key_cons Hw2.
  pose proof (letter_word a Ha) as Hw.
  unfold test. erewrite exec_m; [done|].
  unfold RE_VariableStart.
  rewrite m_seq, m_bol, Nat.eqb_refl, m_seq, m_star_greedy.
  apply greedy_drop_while. rewrite drop_while_app by done.
  rewrite drop_while_stop
    by (rewrite app_cons; simpl; by apply word_not_white_space).
  rewrite m_seq, app_cons, m_class_cons, Ha, m_seq, m_star_greedy.
  apply greedy_drop_while.
  rewrite drop_while_app by (eapply all_impl; [apply word_ident|done]).
  rewrite m_seq, m_star_greedy. apply greedy_drop_while.
  by rewrite drop_while_before_eq.
Qed.

Lemma trimStart_drop_while (s : string) : trimStart s = drop_while is_white_space s.
Proof. induction s as [|a s IH]; [done|]. simpl. by rewrite IH. Qed.

Lemma trim_unquoted (rest : string) :
  trim (take_while not_hash (drop_while (is_char " ") rest)) =
  trim (take_while not_hash rest).
Proof.
  induction rest as [|a rest IH]; [done|]. simpl.
  destruct (is_char " " a) eqn:Ha; [|done].
  rewrite (space_not_hash a Ha), IH. unfold trim. simpl.
  by rewrite (space_white_space a Ha).
Qed.

Lemma quote_not_space a : is_quote a = true → is_char " " a = false.
Proof. by_cases a. Qed.

Lemma parse_line_quoted env w1 key w2 sp o q c tail :
  all is_white_space w1 = true → is_key key = true →
  all is_white_space w2 = true → all (is_char " ") sp = true →
  is_quote o = true → is_quote c = true →
  nonempty q = true → all not_CR q = true → all not_quote tail = true →
  parse_line env
    (w1 +:+ key +:+ w2 +:+ "=" +:+ sp +:+ String o (q +:+ String c tail)) =
  Return (set key (expandNewlines q) env).
Proof.
  intros Hw1 Hkey Hw2 Hsp Ho Hc Hq HCR Htail. unfold parse_line.
  change ("=" +:+ sp +:+ String o (q +:+ String c tail))
    with (String "=" (sp +:+ String o (q +:+ String c tail))).
  rewrite test_VariableStart by done. simpl negb. cbv iota.
  erewrite exec_m.
  2:{ apply m_KeyValue; [done|by apply is_key_word..|].
      apply after_key_eq; [done|].
      rewrite drop_while_app, drop_while_stop
        by (done || (simpl; by apply quote_not_space)).
      by apply value_part_quoted. }
  simpl. destruct q as [|a q]; done.
Qed.

Lemma parse_line_unquoted env w1 key w2 rest :
  all is_white_space w1 = true → is_key key = true →
  all is_white_space w2 = true →
  head_is is_quote (drop_while (is_char " ") rest) = false →
  parse_line env (w1 +:+ key +:+ w2 +:+ "=" +:+ rest) =
  Return (set key (trim (take_while not_hash rest)) env).
Proof.
  intros Hw1 Hkey Hw2 Hrest. unfold parse_line.
  change ("=" +:+ rest) with (String "=" rest).
  rewrite test_VariableStart by done. simpl negb. cbv iota.
  erewrite exec_m.
  2:{ apply m_KeyValue; [done|by apply is_key_word..|].
      apply after_key_eq; [done|]. by apply value_part_unquoted. }
  simpl. by rewrite trim_unquoted.
Qed.

(** ** What a successful match looks like *)

Lemma star_loop_sound n0 r b (k : cont) :
  (∀ s g (k' : cont) x, m n0 r s g k' = Some x →
     ∃ s1 g1, matches n0 r s g s1 g1 ∧ k' s1 g1 = Some x) →
  ∀ fuel s g x, star_loop (m n0 r) b k fuel s g = Some x →
    ∃ s1 g1, matches n0 (Star b r) s g s1 g1 ∧ k s1 g1 = Some x.
Proof.
  intros Hr. induction fuel as [|fuel IH]; intros s g x; simpl.
  - intros Hk. exists s, g. split; [constructor|done].
  - set (again := λ s1 g1, if Nat.ltb _ _ then _ else None).
    assert (Hagain : m n0 r s g again = Some x →
              ∃ s2 g2, matches n0 (Star b r) s g s2 g2 ∧ k s2 g2 = Some x).
    { intros (s1 & g1 & Hm & Ha)%Hr. subst again. simpl in Ha.
      destruct (Nat.ltb _ _); [|done].
      apply IH in Ha as (s2 & g2 & Hstar & Hk).
      exists s2, g2. split; [by eapply matches_Star_S|done]. }
    assert (Hnow : k s g = Some x →
              ∃ s2 g2, matches n0 (Star b r) s g s2 g2 ∧ k s2 g2 = Some x).
    { intros Hk. exists s, g. split; [constructor|done]. }
    destruct b.
    + destruct (m n0 r s g again) eqn:Hm; [intros [= ->]; by apply Hagain|done].
    + destruct (k s g) eqn:Hk; [intros [= ->]; by apply Hnow|done].
Qed.

Lemma m_sound n0 r s g (k : cont) x :
  m n0 r s g k = Some x →
  ∃ s1 g1, matches n0 r s g s1 g1 ∧ k s1 g1 = Some x.
Proof.
  revert s g k x.
  induction r as [| |p|r1 IH1 r2 IH2|r1 IH1 r2 IH2|b r IH|name r IH];
    intros s g k x; simpl.
  - intros Hk. exists s, g. split; [constructor|done].
  - destruct (Nat.eqb _ _) eqn:Hlen; [|done]. intros Hk.
    exists s, g. split; [constructor; by apply Nat.eqb_eq|done].
  - destruct s as [|a s]; [done|]. destruct (p a) eqn:Ha; [|done].
    intros Hk. exists s, g. split; [by constructor|done].
  - intros (s1 & g1 & H1 & (s2 & g2 & H2 & Hk)%IH2)%IH1.
    exists s2, g2. split; [by econstructor|done].
  - destruct (m n0 r1 s g k) eqn:Hm.
    + intros [= ->]. apply IH1 in Hm as (s1 & g1 & H1 & Hk).
      exists s1, g1. split; [by apply matches_Alt_l|done].
    + intros (s1 & g1 & H2 & Hk)%IH2.
      exists s1, g1. split; [by apply matches_Alt_r|done].
  - by apply star_loop_sound.
  - intros (s1 & g1 & H1 & Hk)%IH.
    eexists _, _. split; [by constructor|done].
Qed.

Lemma exec_sound r input g :
  exec r input = Some g →
  ∃ pre s s1, input = pre +:+ s ∧ matches (String.length input) r s [] s1 g.
Proof.
  unfold exec. generalize (String.length input) as n0. intros n0.
  induction input as [|a input IH]; simpl.
  - destruct (m n0 r "" [] _) eqn:Hm; [|done]. intros [= ->].
    apply m_sound in Hm as (s1 & g1 & Hm & [= ->]). by exists "", "", s1.
  - destruct (m n0 r (String a input) [] _) eqn:Hm.
    + intros [= ->]. apply m_sound in Hm as (s1 & g1 & Hm & [= ->]).
      by exists "", (String a input), s1.
    + intros (pre & s & s1 & -> & Hm')%IH. by exists (String a pre), s, s1.
Qed.

Lemma matches_star_class n0 b p s g s1 g1 :
  matches n0 (Star b (Class p)) s g s1 g1 →
  g1 = g ∧ ∃ pre, s = pre +:+ s1 ∧ all p pre = true.
Proof.
  remember (Star b (Class p)) as r eqn:Hr. intros Hm.
  induction Hm as [| | | | | |b' r' s g|b' r' s g s1 g1 s2 g2 H1 _ H2 IH|];
    try discriminate.
  - split; [done|]. by exists "".
  - injection Hr as -> ->. destruct (IH eq_refl) as (-> & pre & -> & Hpre).
    inversion H1; subst. split; [done|]. exists (String a pre).
    split; [done|]. simpl. by rewrite Hpre, andb_true_r.
Qed.

Lemma matches_star_alt_class n0 b p q s g s1 g1 :
  matches n0 (Star b (Alt (Class p) (Class q))) s g s1 g1 →
  g1 = g ∧ ∃ pre, s = pre +:+ s1 ∧ all (λ c, p c || q c) pre = true.
Proof.
  remember (Star b (Alt (Class p) (Class q))) as r eqn:Hr. intros Hm.
  induction Hm as [| | | | | |b' r' s g|b' r' s g s1 g1 s2 g2 H1 _ H2 IH|];
    try discriminate.
  - split; [done|]. by exists "".
  - injection Hr as -> ->. destruct (IH eq_refl) as (-> & pre & -> & Hpre).
    assert (∃ a, s = String a (pre +:+ s2) ∧ g1 = g ∧ (p a || q a) = true)
      as (a & -> & -> & Ha).
    { inversion H1 as [| | | |? ? ? ? ? ? Hl|? ? ? ? ? ? Hr| | |]; subst.
      - inversion Hl; subst. eexists. split; [done|]. split; [done|].
        by apply orb_true_iff; left.
      - inversion Hr; subst. eexists. split; [done|]. split; [done|].
        by apply orb_true_iff; right. }
    split; [done|]. exists (String a pre).
    split; [done|]. simpl. by rewrite Ha, Hpre.
Qed.

Lemma matches_seq_inv n0 r1 r2 s g s2 g2 :
  matches n0 (Seq r1 r2) s g s2 g2 →
  ∃ s1 g1, matches n0 r1 s g s1 g1 ∧ matches n0 r2 s1 g1 s2 g2.
Proof. inversion 1; subst. by eexists _, _. Qed.

Lemma matches_class_inv n0 p s g s1 g1 :
  matches n0 (Class p) s g s1 g1 → g1 = g ∧ ∃ a, s = String a s1 ∧ p a = true.
Proof. inversion 1; subst. split; [done|]. by eexists. Qed.

Lemma matches_named_inv n0 name r s g s1 g' :
  matches n0 (Named name r) s g s1 g' →
  ∃ g1, matches n0 r s g s1 g1 ∧ g' = (name, consumed s s1) :: g1.
Proof. inversion 1; subst. by eexists. Qed.

Lemma matches_alt_inv n0 r1 r2 s g s1 g1 :
  matches n0 (Alt r1 r2) s g s1 g1 →
  matches n0 r1 s g s1 g1 ∨ matches n0 r2 s g s1 g1.
Proof. inversion 1; subst; [by left|by right]. Qed.

(** A match of [RE_KeyValue] from [s] to [s1]: the text before the [=], the
    spaces after it, and then either a quote, the quoted value and a quote,
    or the unquoted value. *)
Lemma matches_KeyValue n0 s s1 g :
  matches n0 RE_KeyValue s [] s1 g →
  ∃ w1 key w2 sp,
    all (is_char " ") sp = true ∧
    ((∃ o q c,
        s = w1 +:+ key +:+ w2 +:+ "=" +:+ sp +:+ String o (q +:+ String c s1) ∧
        g = [("quotedValue", q); ("key", key)] ∧
        is_quote o = true ∧ is_quote c = true ∧ all not_CR q = true) ∨
     (∃ u,
        s = w1 +:+ key +:+ w2 +:+ "=" +:+ sp +:+ u +:+ s1 ∧
        g = [("unQuotedValue", u); ("key", key)])).
Proof.
  unfold RE_KeyValue, Plus.
  intros (sa & ga & (-> & w1 & -> & _)%matches_star_class & H)%matches_seq_inv.
  apply matches_seq_inv in H as (sb & gb & Hkey & H).
  apply matches_named_inv in Hkey as (gk & Hkey & ->).
  apply matches_seq_inv in Hkey
    as (sk & gk' & (-> & a & -> & _)%matches_class_inv
        & (-> & key' & -> & _)%matches_star_class).
  change (String a (key' +:+ sb)) with (String a key' +:+ sb) in *.
  rewrite consumed_app in H.
  apply matches_seq_inv in H
    as (sc & gc & (-> & w2 & -> & _)%matches_star_class & H).
  apply matches_seq_inv in H
    as (sd & gd & (-> & e & -> & He)%matches_class_inv & H).
  assert (e = "="%char) as -> by (clear -He; by_cases e).
  apply matches_seq_inv in H
    as (se & ge & (-> & sp & -> & Hsp)%matches_star_class & H).
  exists w1, (String a key'), w2, sp. split; [done|].
  apply matches_alt_inv in H as [H|H].
  - left.
    apply matches_seq_inv in H
      as (sf & gf & (-> & o & -> & Ho)%matches_class_inv & H).
    apply matches_seq_inv in H as (sg & gg & Hq & H).
    apply matches_named_inv in Hq as (gq & Hq & ->).
    apply matches_star_alt_class in Hq as (-> & q & -> & Hq).
    apply matches_class_inv in H as (-> & c & -> & Hc).
    rewrite consumed_app. by exists o, q, c.
  - right.
    apply matches_named_inv in H as (gu & Hu & ->).
    apply matches_star_class in Hu as (-> & u & -> & _).
    rewrite consumed_app. by exists u.
Qed.

(** The shape of a line whose value the expression takes as quoted. *)
Lemma quotedValue_shape line g q :
  exec RE_KeyValue line = Some g → group "quotedValue" g = Some q →
  ∃ before sp o c tail,
    line = before +:+ "=" +:+ sp +:+ String o (q +:+ String c tail) ∧
    all (is_char " ") sp = true ∧
    is_quote o = true ∧ is_quote c = true ∧ all not_CR q = true.
Proof.
  intros (pre & s & s1 & -> & Hm)%exec_sound Hq.
  apply matches_KeyValue in Hm
    as (w1 & key & w2 & sp & Hsp & [(o & q' & c & -> & -> & Ho & Hc & Hq')|
                                    (u & -> & ->)]); [|done].
  injection Hq as <-.
  exists (pre +:+ w1 +:+ key +:+ w2), sp, o, c, s1.
  by rewrite !app_assoc.
Qed.

(** ** Escaped newlines *)

Lemma is_char_eq x c : is_char x c = true → c = x.
Proof.
  unfold is_char, code. intros H%N.eqb_eq.
  by rewrite <-(ascii_N_embedding c), <-H, ascii_N_embedding.
Qed.

Lemma expandNewlines_cons a b (s : string) :
  expandNewlines (String a (String b s)) =
  if is_char BACKSLASH a && is_char "n" b
  then String LF (expandNewlines s)
  else String a (expandNewlines (String b s)).
Proof. done. Qed.

Lemma expandNewlines_fixed (s : string) :
  has_escape s = false → expandNewlines s = s.
Proof.
  assert (H : ∀ s, (has_escape s = false → expandNewlines s = s) ∧
                   ∀ a, has_escape (String a s) = false →
                        expandNewlines (String a s) = String a s).
  { clear s. induction s as [|b s [IH1 IH2]].
    - split; [done|]. done.
    - split; [apply IH2|]. intros a. simpl has_escape.
      intros [Hab Hs]%orb_false_iff. rewrite expandNewlines_cons, Hab.
      f_equal. by apply IH2. }
  apply H.
Qed.

Lemma expandNewlines_escape (s t : string) :
  expandNewlines (s +:+ String BACKSLASH (String "n" t)) =
  expandNewlines s +:+ String LF (expandNewlines t).
Proof.
  set (x := String BACKSLASH (String "n" t)).
  assert (H : ∀ s,
    expandNewlines (s +:+ x) =
      expandNewlines s +:+ String LF (expandNewlines t) ∧
    ∀ a, expandNewlines (String a s +:+ x) =
      expandNewlines (String a s) +:+ String LF (expandNewlines t)).
  { clear s. induction s as [|b s [IH1 IH2]].
    - split; [done|]. intros a. rewrite app_cons, app_nil_l. subst x.
      rewrite expandNewlines_cons.
      change (is_char "n" BACKSLASH) with false. rewrite andb_false_r.
      by rewrite expandNewlines_cons.
    - split; [apply IH2|]. intros a.
      rewrite !app_cons, !expandNewlines_cons.
      destruct (is_char BACKSLASH a && is_char "n" b).
      + by rewrite IH1, app_cons.
      + rewrite <-app_cons, IH2. by rewrite app_cons. }
  apply H.
Qed.

(** ** Splitting into lines *)

Lemma split_lines_not_LF (x : string) : all not_LF x = true → split_lines x = [x].
Proof.
  induction x as [|a x IH]; [done|]. simpl.
  intros [Ha Hx]%andb_true_iff. unfold not_LF in Ha.
  apply negb_true_iff in Ha as ->. by rewrite IH.
Qed.

Lemma split_lines_app (x rest : string) :
  all not_LF x = true →
  split_lines (x +:+ String LF rest) = x :: split_lines rest.
Proof.
  induction x as [|a x IH]; [done|]. rewrite app_cons. simpl.
  intros [Ha Hx]%andb_true_iff. unfold not_LF in Ha.
  apply negb_true_iff in Ha as ->. by rewrite IH.
Qed.

Lemma split_lines_join (lines : list string) :
  Forall (λ l, all not_LF l = true) lines → lines ≠ [] →
  split_lines (join (String LF "") lines) = lines.
Proof.
  induction 1 as [|x lines Hx Hlines IH]; [done|]. intros _.
  destruct lines as [|y lines]; simpl.
  - by apply split_lines_not_LF.
  - change (String LF "" +:+ ?r) with (String LF r).
    rewrite split_lines_app by done. f_equal. by apply IH.
Qed.

Lemma parse_join (lines : list string) :
  Forall (λ l, all not_LF l = true) lines →
  parse (join (String LF "") lines) = parse_lines [] lines.
Proof.
  intros Hlines. unfold parse. destruct lines as [|x lines]; [done|].
  by rewrite split_lines_join.
Qed.

Lemma parse_lines_app env lines1 lines2 :
  parse_lines env (lines1 ++ lines2) =
  match parse_lines env lines1 with
  | Return env' => parse_lines env' lines2
  | Throw e => Throw e
  end.
Proof.
  revert env. induction lines1 as [|l lines1 IH]; intros env; simpl; [done|].
  by destruct (parse_line env l).
Qed.

Lemma parse_lines_skip env lines1 line lines2 :
  test RE_VariableStart line = false →
  parse_lines env (lines1 ++ line :: lines2) = parse_lines env (lines1 ++ lines2).
Proof.
  intros Hline. rewrite !parse_lines_app.
  destruct (parse_lines env lines1) as [env'|]; [|done].
  simpl. unfold parse_line at 1. by rewrite Hline.
Qed.

(** ** Quoted values *)

(** C5, as stated, fails on the delimiters: a value that opens with a double
    quote and closes with a single quote is taken as quoted. *)
Lemma mismatched_quotes_are_quoted :
  DQUOTE ≠ SQUOTE ∧
  exec RE_KeyValue ("A=" +:+ String DQUOTE "b'") =
    Some [("quotedValue", "b"); ("key", "A")] ∧
  parse ("A=" +:+ String DQUOTE "b'") = Return [("A", "b")].
Proof. repeat split; [done|vm_compute; reflexivity..]. Qed.

(** C5, amended: a value is taken as quoted only when, after the [=] and the
    spaces that follow it, the line has a single or double quote, the value,
    and again a single or double quote, not necessarily the same. For a key
    of letters, digits and underscores, such a value, non-empty and without
    carriage return, followed by text without quotes, is taken as quoted
    whatever quotes it holds itself, and is bound with its escaped newlines
    expanded. *)
Theorem quoted_value_rule :
  (∀ line g q,
     exec RE_KeyValue line = Some g → group "quotedValue" g = Some q →
     ∃ before sp o c tail,
       line = before +:+ "=" +:+ sp +:+ String o (q +:+ String c tail) ∧
       all (is_char " ") sp = true ∧
       is_quote o = true ∧ is_quote c = true ∧ all not_CR q = true) ∧
  (∀ env w1 key w2 sp o q c tail,
     all is_white_space w1 = true → is_key key = true →
     all is_white_space w2 = true → all (is_char " ") sp = true →
     is_quote o = true → is_quote c = true →
     nonempty q = true → all not_CR q = true → all not_quote tail = true →
     parse_line env
       (w1 +:+ key +:+ w2 +:+ "=" +:+ sp +:+ String o (q +:+ String c tail)) =
     Return (set key (expandNewlines q) env)).
Proof. split; [apply quotedValue_shape|apply parse_line_quoted]. Qed.

Lemma quoted_value_rule_witness :
  parse_line [] (" " +:+ "A" +:+ " " +:+ "=" +:+ " "
                 +:+ String SQUOTE ("it's" +:+ String DQUOTE " # x")) =
  Return [("A", "it's")].
Proof.
  exact (proj2 quoted_value_rule [] " " "A" " " " " SQUOTE "it's" DQUOTE " # x"
           eq_refl eq_refl eq_refl eq_refl eq_refl eq_refl eq_refl eq_refl eq_refl).
Defined.

(** ** The example of the specification *)

(** C7: on the example [parse] returns [FOO] and [BAZ], the escaped newline
    of [BAZ] expanded; a line that does not match [RE_VariableStart] changes
    nothing and throws nothing; a quoted value is bound with every [\n]
    replaced by a line feed and nothing else changed; an unquoted value, the
    text up to the first [#], is bound trimmed. *)
Theorem parse_example :
  parse example_input =
    Return [("FOO", "bar"); ("BAZ", "qux" +:+ nl +:+ "quux")] ∧
  (∀ lines1 line lines2,
     Forall (λ l, all not_LF l = true) (lines1 ++ line :: lines2) →
     test RE_VariableStart line = false →
     parse (join nl (lines1 ++ line :: lines2)) = parse (join nl (lines1 ++ lines2))) ∧
  (∀ env w1 key w2 sp o q c tail,
     all is_white_space w1 = true → is_key key = true →
     all is_white_space w2 = true → all (is_char " ") sp = true →
     is_quote o = true → is_quote c = true →
     nonempty q = true → all not_CR q = true → all not_quote tail = true →
     parse_line env
       (w1 +:+ key +:+ w2 +:+ "=" +:+ sp +:+ String o (q +:+ String c tail)) =
     Return (set key (expandNewlines q) env)) ∧
  (∀ s t, expandNewlines (s +:+ "\n" +:+ t) =
          expandNewlines s +:+ nl +:+ expandNewlines t) ∧
  (∀ s, has_escape s = false → expandNewlines s = s) ∧
  (∀ env w1 key w2 rest,
     all is_white_space w1 = true → is_key key = true →
     all is_white_space w2 = true →
     head_is is_quote (drop_while (is_char " ") rest) = false →
     parse_line env (w1 +:+ key +:+ w2 +:+ "=" +:+ rest) =
     Return (set key (trim (take_while not_hash rest)) env)).
Proof.
  split; [vm_compute; reflexivity|].
  split; [|split; [|split; [|split]]].
  - intros lines1 line lines2 Hall Hline.
    rewrite !parse_join; [by apply parse_lines_skip| |done].
    apply Forall_app in Hall as [H1 H2]. apply Forall_app. split; [done|].
    by apply Forall_cons in H2 as [_ H2].
  - apply parse_line_quoted.
  - intros s t. apply expandNewlines_escape.
  - apply expandNewlines_fixed.
  - apply parse_line_unquoted.
Qed.

Lemma parse_example_witness :
  parse (join nl ["A=1"; "# comment"; "B = 2"]) = parse (join nl ["A=1"; "B = 2"]) ∧
  parse_line [] ("" +:+ "A" +:+ "" +:+ "=" +:+ "" +:+ dq "x\ty\nz") =
    Return [("A", "x\ty" +:+ nl +:+ "z")] ∧
  parse_line [] (" " +:+ "A" +:+ " " +:+ "=" +:+ "  b c  # d") = Return [("A", "b c")].
Proof.
  split; [|split].
  - apply (proj1 (proj2 parse_example) ["A=1"] "# comment" ["B = 2"]).
    + repeat constructor.
    + reflexivity.
  - exact (proj1 (proj2 (proj2 parse_example)) [] "" "A" "" "" DQUOTE "x\ty\nz" DQUOTE ""
             eq_refl eq_refl eq_refl eq_refl eq_refl eq_refl eq_refl eq_refl eq_refl).
  - exact (proj2 (proj2 (proj2 (proj2 (proj2 parse_example)))) [] " " "A" " " "  b c  # d"
             eq_refl eq_refl eq_refl eq_refl).
Defined.

(** ** When [parse] throws *)

Lemma value_part_total n0 v g : ∃ x, m n0 value_part v g final = Some x.
Proof.
  unfold value_part. rewrite m_alt.
  destruct (m n0 (Seq _ _) v g final) as [x|]; [by exists x|].
  rewrite m_named, m_star_greedy. eexists.
  by apply greedy_drop_while.
Qed.

Lemma KeyValue_at_token n0 tok ws rest :
  nonempty tok = true → all is_word tok = true → all is_white_space ws = true →
  ∃ x, m n0 RE_KeyValue (tok +:+ ws +:+ String "=" rest) [] final = Some x.
Proof.
  intros Hne Htok Hws.
  destruct (value_part_total n0 (drop_while (is_char " ") rest) [("key", tok)])
    as [x Hx].
  exists x. apply (m_KeyValue n0 "" tok); [done..|]. by apply after_key_eq.
Qed.

Lemma search_suffix n0 r pre s x :
  m n0 r s [] final = Some x → ∃ y, search n0 r (pre +:+ s) = Some y.
Proof.
  intros Hx. induction pre as [|a pre [y IH]].
  - exists x. rewrite app_nil_l. unfold final in Hx.
    destruct s; simpl; by rewrite Hx.
  - rewrite app_cons. simpl.
    destruct (m n0 r (String a (pre +:+ s)) [] _) as [z|]; [by exists z|].
    by exists y.
Qed.

Lemma ident_char_cases c :
  is_ident_char c = true → is_word c = true ∨ is_white_space c = true.
Proof.
  destruct c as [[] [] [] [] [] [] [] []]; intros H;
    try discriminate H; (by left) || (by right).
Qed.

Lemma KeyValue_somewhere n0 idt :
  ∀ tok wsp w2 rest,
    all is_ident_char idt = true →
    nonempty tok = true → all is_word tok = true →
    all is_white_space wsp = true → all is_white_space w2 = true →
    ∃ pre s x,
      tok +:+ wsp +:+ idt +:+ w2 +:+ String "=" rest = pre +:+ s ∧
      m n0 RE_KeyValue s [] final = Some x.
Proof.
  induction idt as [|c idt IH]; intros tok wsp w2 rest Hidt Hne Htok Hwsp Hw2.
  - destruct (KeyValue_at_token n0 tok (wsp +:+ w2) rest) as [x Hx];
      [done|done|by rewrite all_app, Hwsp, Hw2|].
    exists "", (tok +:+ (wsp +:+ w2) +:+ String "=" rest), x.
    split; [|done]. by rewrite app_nil_l, !app_assoc.
  - simpl in Hidt. apply andb_true_iff in Hidt as [Hc Hidt].
    destruct (ident_char_cases c Hc) as [Hw|Hs].
    + destruct (IH (String c "") "" w2 rest) as (pre & s & x & Heq & Hx);
        [done|done|by simpl; rewrite Hw|done|done|].
      exists (tok +:+ wsp +:+ pre), s, x. split; [|done].
      rewrite !app_assoc. do 2 f_equal. by rewrite <-Heq.
    + destruct (IH tok (wsp +:+ String c "") w2 rest) as (pre & s & x & Heq & Hx);
        [done|done|done|by rewrite all_app, Hwsp; simpl; rewrite Hs|done|].
      exists pre, s, x. split; [|done].
      rewrite <-Heq. by rewrite !app_assoc.
Qed.

Lemma length_app_eq (pre s : string) :
  String.length s = String.length (pre +:+ s) → pre = "".
Proof. rewrite length_app. destruct pre; [done|]. simpl. lia. Qed.

(** A line that passes the first test of [parse] has a match of the second
    expression: the destructuring in [parse] never meets [undefined]. *)
Lemma VariableStart_KeyValue line :
  test RE_VariableStart line = true → ∃ g, exec RE_KeyValue line = Some g.
Proof.
  unfold test. destruct (exec RE_VariableStart line) as [g|] eqn:Hexec; [|done].
  intros _. apply exec_sound in Hexec as (pre & s & s1 & Hline & Hm).
  unfold RE_VariableStart in Hm.
  apply matches_seq_inv in Hm as (sa & ga & Hbol & Hm).
  inversion Hbol as [|? ? Hlen| | | | | | |]; subst sa ga.
  rewrite Hline in Hlen. apply length_app_eq in Hlen as ->.
  rewrite app_nil_l in Hline. subst s.
  apply matches_seq_inv in Hm
    as (sb & gb & (-> & w1 & -> & Hw1)%matches_star_class & Hm).
  apply matches_seq_inv in Hm
    as (sc & gc & (-> & a & -> & Ha)%matches_class_inv & Hm).
  apply matches_seq_inv in Hm
    as (sd & gd & (-> & idt & -> & Hidt)%matches_star_class & Hm).
  apply matches_seq_inv in Hm
    as (se & ge & (-> & w2 & -> & Hw2)%matches_star_class & Hm).
  apply matches_class_inv in Hm as (-> & e & -> & He).
  assert (e = "="%char) as -> by (clear -He; by_cases e).
  destruct (KeyValue_somewhere (String.length (w1 +:+ String a (idt +:+ w2 +:+ String "=" s1)))
              idt (String a "") "" w2 s1)
    as (pre & s & x & Heq & Hx); [done|done|by simpl; rewrite (letter_word a Ha)|done..|].
  change (String a "" +:+ "" +:+ idt +:+ w2 +:+ String "=" s1)
    with (String a (idt +:+ w2 +:+ String "=" s1)) in Heq.
  unfold exec.
  remember (String.length (w1 +:+ String a (idt +:+ w2 +:+ String "=" s1))) as n0.
  rewrite Heq, <-app_assoc. by eapply search_suffix.
Qed.

(** X1: [parse] throws only at a line whose value, after the [=] and the spaces
    that follow it, starts with two quotes: the quoted value is empty. What
    it throws is the [TypeError] of reading [trim] of [undefined]. *)
Theorem parse_line_throws env line e :
  parse_line env line = Throw e →
  e = TypeError ∧
  ∃ before sp o c tail,
    line = before +:+ "=" +:+ sp +:+ String o (String c tail) ∧
    all (is_char " ") sp = true ∧ is_quote o = true ∧ is_quote c = true.
Proof.
  unfold parse_line. destruct (test RE_VariableStart line) eqn:Htest; [|done].
  destruct (VariableStart_KeyValue line Htest) as [g Hg]. rewrite Hg. simpl.
  pose proof Hg as (pre & s & s1 & -> & Hm)%exec_sound.
  apply matches_KeyValue in Hm
    as (w1 & key & w2 & sp & Hsp & [(o & q & c & -> & -> & Ho & Hc & Hq)|
                                    (u & -> & ->)]); [|done].
  simpl. destruct q as [|a q]; [|done]. intros [= <-]. split; [done|].
  exists (pre +:+ w1 +:+ key +:+ w2), sp, o, c, s1.
  by rewrite !app_assoc.
Qed.

Lemma parse_line_throws_witness :
  ∃ before sp o c tail,
    "KEY=" +:+ dq "" = before +:+ "=" +:+ sp +:+ String o (String c tail) ∧
    all (is_char " ") sp = true ∧ is_quote o = true ∧ is_quote c = true.
Proof.
  apply (parse_line_throws [] ("KEY=" +:+ dq "") TypeError). reflexivity.
Defined.

(** ** Empty values *)

(** C6 at the input where the code departs from it: the quoted empty value
    makes [quotedValue] the empty string, which is not truthy, and
    [unQuotedValue] is undefined. The unquoted empty value is bound. *)
Lemma quoted_empty_value_throws :
  exec RE_KeyValue ("KEY=" +:+ dq "") = Some [("quotedValue", ""); ("key", "KEY")] ∧
  parse ("KEY=" +:+ dq "") = Throw TypeError ∧
  parse "KEY=''" = Throw TypeError ∧
  parse "KEY=" = Return [("KEY", "")].
Proof. repeat split; vm_compute; reflexivity. Qed.

Lemma word_not_LF a : is_word a = true → not_LF a = true.
Proof. by_cases a. Qed.

(** X3: a line [KEY=] binds [KEY] to the empty string. *)
Theorem empty_unquoted_value key :
  is_key key = true → parse (key +:+ "=") = Return [(key, "")].
Proof.
  intros Hkey. unfold parse.
  rewrite split_lines_not_LF.
  - pose proof (parse_line_unquoted [] "" key "" "") as Hline.
    change ("" +:+ key +:+ "" +:+ "=" +:+ "") with (key +:+ "=") in Hline.
    simpl. by rewrite Hline.
  - rewrite all_app, andb_true_r.
    eapply all_impl; [apply word_not_LF|]. by apply is_key_word.
Qed.

Lemma empty_unquoted_value_witness : parse ("KEY" +:+ "=") = Return [("KEY", "")].
Proof. by apply (empty_unquoted_value "KEY"). Defined.

(** ** [exists] and [existsSync] *)

(** X4: [exists] reports through its callback what [existsSync] returns, and
    for a path that does not exist it calls the callback twice: where
    [existsSync] returns true the callback is called once, with no error and
    true; where it returns false the callback is called with no error and
    false and then once more with the [NotFound] error and false; where
    [existsSync] throws the error of [lstat] the callback is called once
    with that error and false; and where [fromFileUrl] refuses the URL both
    throw its error and the callback is never called. *)
Theorem exists_existsSync fromFileUrl lstat path :
  match existsSync fromFileUrl lstat path with
  | Return true => exists_ fromFileUrl lstat path = Return [(None, true)]
  | Return false =>
      exists_ fromFileUrl lstat path =
        Return [(None, false); (Some LstatNotFound, false)]
  | Throw e =>
      (toPath fromFileUrl path = Throw e ∧ exists_ fromFileUrl lstat path = Throw e) ∨
      (∃ p e', toPath fromFileUrl path = Return p ∧ lstat p = LstatThrows (LstatFailed e') ∧
         e = DenoError e' ∧
         exists_ fromFileUrl lstat path = Return [(Some (LstatFailed e'), false)])
  end.
Proof.
  unfold existsSync, exists_.
  destruct (toPath fromFileUrl path) as [p|e]; [|by left].
  destruct (lstat p) as [|[|e']] eqn:Hp; [done|done|].
  right. by exists p, e'.
Qed.

(** ** Escaped newlines, once more *)

Lemma expandNewlines_head b (s : string) :
  ∃ c t, expandNewlines (String b s) = String c t ∧ (c = b ∨ c = LF).
Proof.
  destruct s as [|b' s]; [by exists b, ""; split; [|left]|].
  rewrite expandNewlines_cons. destruct (_ && _); eexists _, _.
  - split; [done|by right].
  - split; [done|by left].
Qed.

Lemma has_escape_cons a b (s : string) :
  has_escape (String a (String b s)) =
  (is_char BACKSLASH a && is_char "n" b) || has_escape (String b s).
Proof. done. Qed.

Lemma has_escape_expandNewlines (s : string) : has_escape (expandNewlines s) = false.
Proof.
  assert (H : ∀ s, has_escape (expandNewlines s) = false ∧
                   ∀ a, has_escape (expandNewlines (String a s)) = false).
  { clear s. induction s as [|b s [IH1 IH2]].
    - split; [done|]. done.
    - split; [apply IH2|]. intros a. rewrite expandNewlines_cons.
      destruct (is_char BACKSLASH a && is_char "n" b) eqn:Hab.
      + destruct s as [|c s]; [done|].
        destruct (expandNewlines_head c s) as (c' & t & Heq & _).
        rewrite Heq, has_escape_cons. rewrite <-Heq, IH1. reflexivity.
      + destruct (expandNewlines_head b s) as (c' & t & Heq & Hc').
        rewrite Heq, has_escape_cons. rewrite <-Heq, (IH2 b), orb_false_r.
        destruct Hc' as [->| ->]; [done|]. by destruct (is_char BACKSLASH a). }
  apply H.
Qed.

Lemma length_expandNewlines (s : string) :
  (String.length (expandNewlines s) ≤ String.length s)%nat.
Proof.
  assert (H : ∀ s, (String.length (expandNewlines s) ≤ String.length s)%nat ∧
                   ∀ a, (String.length (expandNewlines (String a s))
                         ≤ String.length (String a s))%nat).
  { clear s. induction s as [|b s [IH1 IH2]].
    - split; [done|]. done.
    - split; [apply IH2|]. intros a. rewrite expandNewlines_cons.
      destruct (_ && _); simpl String.length.
      + lia.
      + specialize (IH2 b). simpl String.length in IH2. lia. }
  apply H.
Qed.

(** X5: [expandNewlines] leaves no escaped newline behind, so expanding
    twice is expanding once; it never makes a string longer. *)
Theorem expandNewlines_idempotent (s : string) :
  has_escape (expandNewlines s) = false ∧
  expandNewlines (expandNewlines s) = expandNewlines s ∧
  (String.length (expandNewlines s) ≤ String.length s)%nat.
Proof.
  split; [apply has_escape_expandNewlines|].
  split; [apply expandNewlines_fixed, has_escape_expandNewlines|].
  apply length_expandNewlines.
Qed.

(** ** Parsing one text after another *)

Lemma split_lines_cons (s : string) : ∃ l ls, split_lines s = l :: ls.
Proof.
  induction s as [|a s (l & ls & IH)]; [by exists "", []|]. simpl.
  destruct (is_char LF a); [by eexists _, _|]. rewrite IH. by eexists _, _.
Qed.

Lemma split_lines_concat (a b : string) :
  split_lines (a +:+ String LF b) = (split_lines a ++ split_lines b)%list.
Proof.
  induction a as [|c a IH]; [done|]. rewrite app_cons. simpl.
  destruct (is_char LF c); [by rewrite IH|]. rewrite IH.
  by destruct (split_lines_cons a) as (l & ls & ->).
Qed.

(** What a line does to the map does not depend on the map. *)
Lemma parse_line_env line :
  (∃ e, ∀ env, parse_line env line = Throw e) ∨
  (∀ env, parse_line env line = Return env) ∨
  (∃ k v, ∀ env, parse_line env line = Return (set k v env)).
Proof.
  unfold parse_line. destruct (negb _); [by right; left|].
  destruct (exec RE_KeyValue line) as [g|]; [|by left; eexists].
  destruct (truthy _); [by right; right; eexists _, _|].
  destruct (group "unQuotedValue" g); [by right; right; eexists _, _|].
  by left; eexists.
Qed.

Lemma parse_lines_from env lines :
  match parse_lines [] lines with
  | Throw e => parse_lines env lines = Throw e
  | Return conf0 =>
      ∃ conf, parse_lines env lines = Return conf ∧
        ∀ k, get k conf =
             match get k conf0 with Some v => Some v | None => get k env end
  end.
Proof.
  induction lines as [|line lines IH] using rev_ind.
  - simpl. by exists env.
  - rewrite !parse_lines_app. destruct (parse_lines [] lines) as [conf0|e].
    + destruct IH as (conf & -> & Hget). simpl.
      destruct (parse_line_env line) as [[e He]|[Hskip|(k1 & v1 & Hset)]].
      * by rewrite !He.
      * rewrite !Hskip. by exists conf.
      * rewrite !Hset. eexists. split; [done|]. intros k.
        rewrite !get_set, Hget. by repeat case_decide.
    + by rewrite IH.
Qed.

(** X6: parsing two texts joined by a line feed is parsing the first and
    then the second on top of it: a key of the second text has the value the
    second text gives it, any other key the value of the first text; and if
    one of the two does not parse, neither does the joined text. *)
Theorem parse_concat (a b : string) :
  match parse a, parse b with
  | Return confA, Return confB =>
      ∃ conf, parse (a +:+ nl +:+ b) = Return conf ∧
        ∀ k, get k conf =
             match get k confB with Some v => Some v | None => get k confA end
  | Throw e, _ => parse (a +:+ nl +:+ b) = Throw e
  | Return _, Throw e => parse (a +:+ nl +:+ b) = Throw e
  end.
Proof.
  unfold parse, nl. change (String LF "" +:+ b) with (String LF b).
  rewrite split_lines_concat, parse_lines_app.
  destruct (parse_lines [] (split_lines a)) as [confA|e]; [|done].
  pose proof (parse_lines_from confA (split_lines b)) as Hb.
  by destruct (parse_lines [] (split_lines b)) as [confB|e].
Qed.

(** ** Loading twice, and loading into a larger environment *)

(** The map a load merges from its sources, and its check in safe mode. *)
Lemma load_steps_returns read o (env : gmap string string) conf :
  (∀ p c, read p = Return c → wf c) →
  (load_steps read o env).1 = Return conf ↔
  wf conf ∧
  (∃ conf0, read (o_path o) = Return conf0 ∧
     if nonempty (o_defaults o)
     then ∃ confDefaults, read (o_defaults o) = Return confDefaults ∧
            conf = copy_defaults conf0 confDefaults
     else conf = conf0) ∧
  (o_safe o = true →
   ∃ confExample, read (o_example o) = Return confExample ∧
     ∀ k, k ∈ Object_keys confExample →
          is_present (o_allowEmptyValues o) (overlaid env conf k) = true).
Proof.
  intros Hwf. unfold load_steps.
  destruct (read (o_path o)) as [conf0|e0] eqn:H0.
  2:{ split; [done|]. by intros (_ & (? & ? & _) & _). }
  pose proof (Hwf _ _ H0) as Hwf0.
  assert (Hmerge : ∀ c, wf c →
    (match (if o_safe o then
              match read (o_example o) with
              | Return confExample =>
                  (assertSafe c confExample (o_allowEmptyValues o) env).1
              | Throw e => Throw e
              end
            else Return ()) with
     | Return _ =>
         (Return c, if o_export o then (for_in c (export_key c) env).2 else env)
     | Throw e => (Throw e, env)
     end).1 = Return conf ↔
    c = conf ∧
    (o_safe o = true →
     ∃ confExample, read (o_example o) = Return confExample ∧
       ∀ k, k ∈ Object_keys confExample →
            is_present (o_allowEmptyValues o) (overlaid env c k) = true)).
  { intros c Hc. destruct (o_safe o).
    - destruct (read (o_example o)) as [confExample|e] eqn:Hex.
      + rewrite assertSafe_spec by done. simpl.
        pose proof (missing_keys_nil env c confExample (o_allowEmptyValues o)) as Hnil.
        destruct (missing_keys env c confExample (o_allowEmptyValues o)) as [|k1 l].
        * simpl. split.
          -- intros [= ->]. split; [done|]. intros _. exists confExample.
             split; [done|]. by apply Hnil.
          -- by intros [-> _].
        * simpl. split; [done|]. intros [_ Hall].
          destruct (Hall eq_refl) as (ex & [= <-] & Hk).
          by apply Hnil in Hk.
      + simpl. split; [done|]. intros [_ Hall].
        by destruct (Hall eq_refl) as (ex & ? & _).
    - simpl. split; [intros [= ->]; by split|by intros [-> _]]. }
  destruct (nonempty (o_defaults o)).
  - destruct (read (o_defaults o)) as [confDefaults|e] eqn:Hd.
    + rewrite Hmerge by (by apply wf_copy_defaults). split.
      * intros [<- Hsafe]. split; [by apply wf_copy_defaults|].
        split; [|done]. exists conf0. split; [done|]. by exists confDefaults.
      * intros (_ & (c0 & [= <-] & cd & [= <-] & ->) & Hsafe). by split.
    + split; [done|]. by intros (_ & (c0 & _ & cd & ? & _) & _).
  - rewrite Hmerge by done. split.
    + intros [<- Hsafe]. split; [done|]. split; [|done]. by exists conf0.
    + intros (_ & (c0 & [= <-] & ->) & Hsafe). by split.
Qed.

Lemma load_steps_env read o (env : gmap string string) conf :
  (load_steps read o env).1 = Return conf →
  ∀ k, (load_steps read o env).2 !! k =
       if o_export o
       then match env !! k with Some v => Some v | None => get k conf end
       else env !! k.
Proof.
  pose proof (load_steps_effect read o env) as Heff. unfold load_effect in Heff.
  intros Hconf k. rewrite Hconf in Heff.
  destruct (o_export o); [apply Heff|by rewrite Heff].
Qed.

Lemma load_steps_twice read o (env : gmap string string) conf env' :
  (∀ p c, read p = Return c → wf c) →
  load_steps read o env = (Return conf, env') →
  load_steps read o env' = (Return conf, env').
Proof.
  intros Hwf Hload.
  assert (Hconf : (load_steps read o env).1 = Return conf) by (by rewrite Hload).
  pose proof (load_steps_env read o env conf Hconf) as Henv.
  rewrite Hload in Henv. simpl in Henv.
  assert (Hov : ∀ k, overlaid env' conf k = overlaid env conf k).
  { intros k. unfold overlaid. destruct (get k conf) eqn:Hk; [done|].
    rewrite Henv. destruct (o_export o); [|done]. rewrite Hk.
    by destruct (env !! k). }
  assert (Hconf' : (load_steps read o env').1 = Return conf).
  { apply load_steps_returns; [done|].
    apply load_steps_returns in Hconf as (Hc & Hm & Hs); [|done].
    split; [done|]. split; [done|]. intros Hsafe.
    destruct (Hs Hsafe) as (ex & Hex & Hk). exists ex. split; [done|].
    intros k Hin. rewrite Hov. by apply Hk. }
  pose proof (load_steps_env read o env' conf Hconf') as Henv'.
  destruct (load_steps read o env') as [r env''] eqn:Hload'.
  simpl in Hconf', Henv'. subst r. f_equal.
  apply map_eq. intros k. rewrite Henv', Henv.
  destruct (o_export o); [|done].
  destruct (env !! k); [done|]. by destruct (get k conf).
Qed.

(** X7: a load is idempotent: after [configSync] or [config] has returned a
    map and left an environment, the same call in that environment returns
    the same map and leaves the environment as it is. *)
Theorem load_twice D options (env : gmap string string) conf env' :
  (configSync D options env = (Return conf, env') →
   configSync D options env' = (Return conf, env')) ∧
  (config D options env = (Return conf, env') →
   config D options env' = (Return conf, env')).
Proof.
  split; rewrite ?configSync_steps, ?config_steps; apply load_steps_twice.
  - apply (read_wf _ _ D configSync_in_loads).
  - apply (read_wf _ _ D config_in_loads).
Qed.

Lemma load_twice_witness :
  configSync D_A1 export_true ∅ = (Return [("A", "1")], {[ "A" := "1" ]}) ∧
  configSync D_A1 export_true {[ "A" := "1" ]} = (Return [("A", "1")], {[ "A" := "1" ]}).
Proof.
  assert (H : configSync D_A1 export_true ∅ = (Return [("A", "1")], {[ "A" := "1" ]}))
    by (vm_compute; reflexivity).
  split; [exact H|].
  exact (proj1 (load_twice D_A1 export_true ∅ [("A", "1")] {[ "A" := "1" ]}) H).
Defined.

Lemma is_present_allow allow allow' v :
  (allow = true → allow' = true) →
  is_present allow v = true → is_present allow' v = true.
Proof.
  intros Hallow. destruct v as [v|]; [|done]. simpl.
  destruct allow; [by rewrite Hallow|]. simpl. intros ->. apply orb_true_r.
Qed.

Lemma load_steps_mono read o o' (env env2 : gmap string string) conf :
  (∀ p c, read p = Return c → wf c) →
  o_path o' = o_path o → o_defaults o' = o_defaults o → o_safe o' = o_safe o →
  o_example o' = o_example o →
  (o_allowEmptyValues o = true → o_allowEmptyValues o' = true) →
  env ⊆ env2 →
  (load_steps read o env).1 = Return conf →
  (load_steps read o' env2).1 = Return conf.
Proof.
  intros Hwf Hp Hd Hs He Ha Hsub Hconf.
  apply load_steps_returns; [done|].
  apply load_steps_returns in Hconf as (Hc & Hm & Hsafe); [|done].
  rewrite Hp, Hd, Hs, He. split; [done|]. split; [done|].
  intros Hon. destruct (Hsafe Hon) as (ex & Hex & Hk). exists ex.
  split; [done|]. intros k Hin. specialize (Hk k Hin).
  apply (is_present_allow (o_allowEmptyValues o)); [done|].
  unfold overlaid in *. destruct (get k conf); [done|].
  destruct (env !! k) as [v|] eqn:Hv; [|done].
  by rewrite (lookup_weaken _ _ _ _ Hv Hsub).
Qed.

(** X8: defining more variables never makes safe mode fail, and neither
    does allowing empty values: a load that returns a map in an environment
    returns the same map in every environment that extends it, also with
    [allowEmptyValues] on. *)
Theorem safe_mode_monotone D options (env env2 : gmap string string) conf :
  env ⊆ env2 →
  ((configSync D options env).1 = Return conf →
   (configSync D options env2).1 = Return conf ∧
   (configSync D (with_allowEmptyValues true options) env2).1 = Return conf) ∧
  ((config D options env).1 = Return conf →
   (config D options env2).1 = Return conf ∧
   (config D (with_allowEmptyValues true options) env2).1 = Return conf).
Proof.
  intros Hsub.
  split; rewrite ?configSync_steps, ?config_steps; intros Hconf; split;
    (eapply load_steps_mono; [| | | | | | |exact Hconf]; try done;
     [apply (read_wf _ _ D configSync_in_loads) ||
      apply (read_wf _ _ D config_in_loads)]).
Qed.

Lemma safe_mode_monotone_witness :
  (configSync D_safe safe_true {[ "H" := "h"; "X" := "" ]}).1 =
    Return [("A", "1"); ("B", "2")] ∧
  (configSync D_safe (with_allowEmptyValues true safe_true)
     {[ "H" := "h"; "X" := "" ]}).1 = Return [("A", "1"); ("B", "2")].
Proof.
  assert (Hsub : ({[ "H" := "h" ]} : gmap string string) ⊆ {[ "H" := "h"; "X" := "" ]}).
  { apply insert_mono, map_empty_subseteq. }
  apply (proj1 (safe_mode_monotone D_safe safe_true _ _ [("A", "1"); ("B", "2")] Hsub)).
  vm_compute. reflexivity.
Defined.

(** X9: after a load with [safe] and [export] on has returned, every key of
    the example map and every key of the returned map is defined in the
    process environment. *)
Theorem safe_export_defines load read D options (env : gmap string string)
    conf env' confExample :
  let o := spread defaultConfigOptions options in
  (load, read) ∈ loads →
  o_export o = true →
  load D options env = (Return conf, env') →
  (∀ k, k ∈ Object_keys conf → is_Some (env' !! k)) ∧
  (o_safe o = true → read D (o_example o) = Return confExample →
   ∀ k, k ∈ Object_keys confExample → is_Some (env' !! k)).
Proof.
  intros o Hin Hexport. rewrite (loads_steps load read) by done. fold o.
  intros Hload.
  assert (Hconf : (load_steps (read D) o env).1 = Return conf) by (by rewrite Hload).
  pose proof (load_steps_env (read D) o env conf Hconf) as Henv.
  rewrite Hload, Hexport in Henv. simpl in Henv.
  assert (Hdef : ∀ k, is_Some (overlaid env conf k) → is_Some (env' !! k)).
  { intros k. unfold overlaid. rewrite Henv.
    destruct (env !! k); [by eexists|]. by destruct (get k conf). }
  split.
  - intros k Hk%elem_of_keys_get. apply Hdef. unfold overlaid.
    by destruct Hk as [v ->].
  - intros Hsafe Hex k Hk.
    apply load_steps_returns in Hconf as (_ & _ & Hs); [|by eapply read_wf].
    destruct (Hs Hsafe) as (ex & Hex' & Hp).
    rewrite Hex in Hex'. injection Hex' as <-.
    apply Hdef. specialize (Hp k Hk).
    by destruct (overlaid env conf k).
Qed.

Lemma safe_export_defines_witness :
  is_Some ((configSync D_safe safe_export {[ "H" := "h" ]}).2 !! "A") ∧
  is_Some ((configSync D_safe safe_export {[ "H" := "h" ]}).2 !! "H").
Proof.
  assert (Hload : configSync D_safe safe_export {[ "H" := "h" ]} =
            (Return [("A", "1"); ("B", "2")],
             {[ "A" := "1"; "B" := "2"; "H" := "h" ]}))
    by (vm_compute; reflexivity).
  assert (Hex : parseFile D_safe (o_example (spread defaultConfigOptions safe_export)) =
            Return [("A", ""); ("H", "")]) by (vm_compute; reflexivity).
  rewrite Hload.
  pose proof (proj2 (safe_export_defines configSync parseFile D_safe safe_export _ _ _
                       [("A", ""); ("H", "")] configSync_in_loads eq_refl Hload)
                eq_refl Hex) as Hdef.
  split; apply Hdef.
  - apply elem_of_cons. by left.
  - apply elem_of_cons. right. apply elem_of_cons. by left.
Defined.

(** ** The sources a load reads *)

(** X10: a load reads nothing but its sources: the primary file, the defaults
    file unless its path is empty, and the example file in safe mode. On two
    platforms that agree on these files [configSync] and [config] return the
    same and leave the same environment, whatever other files there are. *)
Theorem load_reads_sources D D' options (env : gmap string string) :
  let o := spread defaultConfigOptions options in
  readFileSync_is_function D = readFileSync_is_function D' →
  (∀ filepath, is_source o filepath → files D filepath = files D' filepath) →
  configSync D options env = configSync D' options env ∧
  config D options env = config D' options env.
Proof.
  intros o Hf Hfiles. rewrite !configSync_steps, !config_steps. fold o.
  split; apply load_steps_reads; intros filepath Hsrc.
  - apply parseFile_files; [done|by apply Hfiles].
  - apply parseFileAsync_files. by apply Hfiles.
Qed.

Lemma load_reads_sources_witness :
  configSync D_A1 no_options ∅ = configSync D_A1_other no_options ∅ ∧
  config D_A1 no_options ∅ = config D_A1_other no_options ∅.
Proof.
  apply (load_reads_sources D_A1 D_A1_other no_options ∅); [reflexivity|].
  intros filepath [->|[[_ ->]|[Hsafe _]]]; [reflexivity|reflexivity|discriminate Hsafe].
Defined.

(** ** Scanning, once more *)

Lemma white_space_not_word a : is_white_space a = true → is_word a = false.
Proof. by_cases a. Qed.
Lemma white_space_not_eq a : is_white_space a = true → is_char "=" a = false.
Proof. by_cases a. Qed.
Lemma letter_ident a : is_letter_ a = true → is_ident_char a = true.
Proof. by_cases a. Qed.
Lemma letter_not_white_space a : is_letter_ a = true → is_white_space a = false.
Proof. by_cases a. Qed.
Lemma eq_is_char a : is_char "=" a = true → a = "="%char.
Proof. by_cases a. Qed.

Lemma nonempty_app (s t : string) : nonempty (s +:+ t) = nonempty s || nonempty t.
Proof. by destruct s. Qed.

Lemma drop_while_app_stop p (s : string) e t :
  p e = false →
  drop_while p (s +:+ String e t) = drop_while p s +:+ String e t.
Proof.
  intros He. induction s as [|a s IH]; simpl; [by rewrite He|].
  rewrite ?app_cons. simpl. by destruct (p a).
Qed.

Lemma all_drop_while p q (s : string) : all q s = true → all q (drop_while p s) = true.
Proof.
  induction s as [|a s IH]; [done|]. simpl. intros Hall.
  destruct (p a); [|done]. apply andb_true_iff in Hall as [_ Hs]. auto.
Qed.

Lemma all_take_while_of p q (s : string) : all q s = true → all q (take_while p s) = true.
Proof.
  induction s as [|a s IH]; [done|]. simpl. intros [Ha Hs]%andb_true_iff.
  destruct (p a); [|done]. simpl. by rewrite Ha, IH.
Qed.

Lemma drop_while_all p (s : string) : all p s = true → drop_while p s = "".
Proof.
  induction s as [|a s IH]; [done|]. simpl. by intros [-> Hs]%andb_true_iff; auto.
Qed.

Lemma drop_while_nil_all p (s : string) : drop_while p s = "" → all p s = true.
Proof.
  induction s as [|a s IH]; [done|]. simpl. destruct (p a); [auto|done].
Qed.

Lemma take_while_all p (s : string) : all p s = true → take_while p s = s.
Proof.
  induction s as [|a s IH]; [done|]. simpl.
  intros [-> Hs]%andb_true_iff. by rewrite IH.
Qed.

(** ** The matcher on a quantified class, exactly *)

Lemma greedy_next p (q : ascii → bool) k s g :
  (∀ c, p c = true → q c = false) →
  (∀ t, head_is q t = false → k t g = None) →
  greedy p k s g = k (drop_while p s) g.
Proof.
  intros Hpq Hk. induction s as [|a s IH]; [done|]. simpl.
  destruct (p a) eqn:Ha; [|done]. rewrite IH.
  destruct (k (drop_while p s) g) eqn:Hd; [done|].
  apply Hk. simpl. by apply Hpq.
Qed.

Lemma greedy_total p k s g :
  (∀ t, is_Some (k t g)) → greedy p k s g = k (drop_while p s) g.
Proof.
  intros Hk. destruct (Hk (drop_while p s)) as [x Hx].
  rewrite Hx. by apply greedy_drop_while.
Qed.

Lemma lazy_stop p k s g :
  k s g = None → head_is p s = false → lazy p k s g = None.
Proof. destruct s as [|a s]; simpl; intros ->; [done|]. by intros ->. Qed.

Lemma greedy_cons p k a s g :
  greedy p k (String a s) g =
  if p a
  then match greedy p k s g with Some x => Some x | None => k (String a s) g end
  else k (String a s) g.
Proof. done. Qed.

Lemma greedy_before_last n0 name p q (pre body : string) g :
  (∀ c, q c = true → p c = true) →
  greedy p (λ s1 g1, m n0 (Class q) s1
                       ((name, consumed (pre +:+ body) s1) :: g1) final) body g =
  match before_last q (take_while p body) with
  | Some v => Some ((name, pre +:+ v) :: g)
  | None => None
  end.
Proof.
  intros Hqp. revert pre. induction body as [|c body IH]; intros pre; [done|].
  rewrite greedy_cons. simpl take_while.
  assert (Hnow : m n0 (Class q) (String c body)
                   ((name, consumed (pre +:+ String c body) (String c body)) :: g) final =
                 if q c then Some ((name, pre +:+ "") :: g) else None).
  { rewrite m_class_cons, consumed_app, app_nil_r. by destruct (q c). }
  destruct (p c) eqn:Hc.
  - specialize (IH (pre +:+ String c "")).
    rewrite app_assoc in IH. change (String c "" +:+ body) with (String c body) in IH.
    rewrite IH. simpl before_last.
    destruct (before_last q (take_while p body)) as [v|].
    + by rewrite app_assoc.
    + rewrite Hnow. by destruct (q c).
  - rewrite Hnow. simpl. destruct (q c) eqn:Hq; [|done].
    apply Hqp in Hq. congruence.
Qed.

(** The value, whatever the text. *)
Lemma value_part_spec n0 v g :
  m n0 value_part v g final =
  Some (match v with
        | String o body =>
            if is_quote o then
              match before_last is_quote (take_while not_CR body) with
              | Some q => ("quotedValue", q) :: g
              | None => ("unQuotedValue", take_while not_hash v) :: g
              end
            else ("unQuotedValue", take_while not_hash v) :: g
        | EmptyString => ("unQuotedValue", take_while not_hash v) :: g
        end).
Proof.
  destruct v as [|o body]; [by apply value_part_unquoted|].
  destruct (is_quote o) eqn:Ho; [|by apply value_part_unquoted; simpl].
  unfold value_part. rewrite m_alt, m_seq, m_class_cons, Ho, m_seq, m_named.
  rewrite m_star_greedy_alt.
  pose proof (greedy_before_last n0 "quotedValue" not_CR is_quote "" body g
                quote_not_CR) as Hq.
  rewrite app_nil_l in Hq. unfold not_CR in Hq at 1. rewrite Hq.
  destruct (before_last is_quote (take_while not_CR body)) as [q|]; [done|].
  rewrite m_named, m_star_greedy.
  apply greedy_drop_while. unfold final. by rewrite consumed_drop_while.
Qed.

Lemma value_part_is_Some n0 g v : is_Some (m n0 value_part v g final).
Proof. rewrite value_part_spec. by eexists. Qed.

(** What follows the key, whatever the text. *)
Lemma after_key_spec n0 t g :
  m n0 after_key t g final =
  match drop_while is_white_space t with
  | String c rest =>
      if is_char "=" c
      then m n0 value_part (drop_while (is_char " ") rest) g final
      else None
  | EmptyString => None
  end.
Proof.
  unfold after_key. rewrite m_seq, m_star_greedy.
  rewrite greedy_next with (q := is_char "=").
  - rewrite m_seq. destruct (drop_while is_white_space t) as [|c rest]; [done|].
    rewrite m_class_cons. destruct (is_char "=" c); [|done].
    rewrite m_seq, m_star_greedy. apply greedy_total.
    intros u. apply value_part_is_Some.
  - apply white_space_not_eq.
  - intros u Hu. by rewrite m_seq, m_class_fails.
Qed.

(** ** Lines that are parsed *)

Lemma VariableStart_shape line :
  test RE_VariableStart line = true →
  ∃ w1 a idt w2 rest,
    line = w1 +:+ String a (idt +:+ w2 +:+ String "=" rest) ∧
    all is_white_space w1 = true ∧ is_letter_ a = true ∧
    all is_ident_char idt = true ∧ all is_white_space w2 = true.
Proof.
  unfold test. destruct (exec RE_VariableStart line) as [g|] eqn:Hexec; [|done].
  intros _. apply exec_sound in Hexec as (pre & s & s1 & Hline & Hm).
  unfold RE_VariableStart in Hm.
  apply matches_seq_inv in Hm as (sa & ga & Hbol & Hm).
  inversion Hbol as [|? ? Hlen| | | | | | |]; subst sa ga.
  rewrite Hline in Hlen. apply length_app_eq in Hlen as ->.
  rewrite app_nil_l in Hline. subst s.
  apply matches_seq_inv in Hm
    as (sb & gb & (-> & w1 & -> & Hw1)%matches_star_class & Hm).
  apply matches_seq_inv in Hm
    as (sc & gc & (-> & a & -> & Ha)%matches_class_inv & Hm).
  apply matches_seq_inv in Hm
    as (sd & gd & (-> & idt & -> & Hidt)%matches_star_class & Hm).
  apply matches_seq_inv in Hm
    as (se & ge & (-> & w2 & -> & Hw2)%matches_star_class & Hm).
  apply matches_class_inv in Hm as (-> & e & -> & He).
  apply eq_is_char in He as ->.
  by exists w1, a, idt, w2, s1.
Qed.

Lemma accepts_shape w1 a idt w2 rest :
  all is_white_space w1 = true → is_letter_ a = true →
  all is_ident_char idt = true → all is_white_space w2 = true →
  accepts (w1 +:+ String a (idt +:+ w2 +:+ String "=" rest)) = true.
Proof.
  intros Hw1 Ha Hidt Hw2. unfold accepts.
  rewrite drop_while_app by done.
  rewrite (drop_while_stop is_white_space (String a _))
    by (simpl; by apply letter_not_white_space).
  simpl head_is. rewrite Ha. simpl andb.
  simpl drop_while at 2. rewrite (letter_ident a Ha).
  rewrite (drop_while_app is_ident_char) by done.
  by rewrite drop_while_before_eq.
Qed.

Lemma accepts_test line : accepts line = true → test RE_VariableStart line = true.
Proof.
  unfold accepts. intros [Hl He]%andb_true_iff.
  unfold test. erewrite exec_m; [done|]. unfold RE_VariableStart.
  rewrite m_seq, m_bol, Nat.eqb_refl, m_seq, m_star_greedy.
  apply greedy_drop_while.
  destruct (drop_while is_white_space line) as [|a t]; [done|].
  simpl in Hl. simpl drop_while in He at 2. rewrite (letter_ident a Hl) in He.
  rewrite m_seq, m_class_cons, Hl, m_seq, m_star_greedy.
  apply greedy_drop_while. rewrite m_seq, m_star_greedy.
  apply greedy_drop_while.
  destruct (drop_while is_white_space (drop_while is_ident_char t)) as [|e u]; [done|].
  simpl in He. by rewrite m_class_cons, He.
Qed.

(** The first test of [parse] is the test of the shape. *)
Lemma test_accepts line : test RE_VariableStart line = accepts line.
Proof.
  destruct (accepts line) eqn:Hacc; [by apply accepts_test|].
  destruct (test RE_VariableStart line) eqn:Htest; [|done].
  apply VariableStart_shape in Htest as (w1 & a & idt & w2 & rest & -> & ? & ? & ? & ?).
  by rewrite accepts_shape in Hacc.
Qed.

Lemma ident_word_or_space a : is_ident_char a = true → is_word_or_space a = true.
Proof. by_cases a. Qed.
Lemma word_or_space_not_eq a : is_word_or_space a = true → not_eq a = true.
Proof. by_cases a. Qed.

(** An accepted line: before its first [=] it has letters, digits,
    underscores and white space, and not only white space. *)
Lemma accepts_region line :
  accepts line = true →
  ∃ R rest, line = R +:+ String "=" rest ∧
    all is_word_or_space R = true ∧ all is_white_space R = false.
Proof.
  rewrite <-test_accepts.
  intros (w1 & a & idt & w2 & rest & -> & Hw1 & Ha & Hidt & Hw2)%VariableStart_shape.
  exists (w1 +:+ String a (idt +:+ w2)), rest.
  split; [by rewrite !app_assoc, !app_cons, !app_assoc|].
  rewrite !all_app. simpl. rewrite !all_app. split.
  - rewrite (all_impl is_white_space is_word_or_space w1),
      (all_impl is_ident_char is_word_or_space idt),
      (all_impl is_white_space is_word_or_space w2); try done.
    + unfold is_word_or_space. by rewrite (letter_word a Ha).
    + intros c Hc. unfold is_word_or_space. by rewrite Hc, orb_true_r.
    + apply ident_word_or_space.
    + intros c Hc. unfold is_word_or_space. by rewrite Hc, orb_true_r.
  - rewrite (letter_not_white_space a Ha). simpl. apply andb_false_r.
Qed.

Lemma before_after_eq R rest :
  all is_word_or_space R = true →
  before_eq (R +:+ String "=" rest) = R ∧ after_eq (R +:+ String "=" rest) = rest.
Proof.
  intros HR. apply (all_impl _ not_eq _ word_or_space_not_eq) in HR.
  unfold before_eq, after_eq.
  rewrite take_while_app, drop_while_app by done. simpl.
  by rewrite app_nil_r.
Qed.

(** ** The key the second expression finds *)

Lemma key_then_value n0 a run after rest g :
  is_word a = true → all is_word run = true →
  all is_word_or_space after = true → head_is is_word after = false →
  m n0 (Seq (Named "key" (Plus false (Class (λ c, negb (is_white_space c)))))
            after_key)
    (String a (run +:+ after +:+ String "=" rest)) g final =
  if all is_white_space after
  then m n0 value_part (drop_while (is_char " ") rest)
         (("key", String a run) :: g) final
  else None.
Proof.
  intros Ha Hrun Hafter Hhead.
  rewrite m_seq, m_named. unfold Plus. rewrite m_seq, m_class_cons.
  rewrite (word_not_white_space a Ha). simpl negb. cbv iota.
  rewrite m_star_lazy.
  rewrite lazy_skip with (w := is_word).
  2:{ intros u Hu. by apply after_key_word. }
  2:{ eapply all_impl; [|done]. intros c Hc.
      by rewrite (word_not_white_space c Hc), Hc. }
  change (String a (run +:+ after +:+ String "=" rest))
    with (String a run +:+ (after +:+ String "=" rest)).
  destruct (all is_white_space after) eqn:Hws.
  - destruct (value_part_is_Some n0 (("key", String a run) :: g)
                (drop_while (is_char " ") rest)) as [x Hx].
    rewrite Hx. apply lazy_now. rewrite consumed_app, after_key_spec.
    rewrite drop_while_app by done. simpl drop_while.
    change (is_char "=" "=") with true. by cbv iota.
  - apply lazy_stop.
    + rewrite after_key_spec, drop_while_app_stop by done.
      destruct (drop_while is_white_space after) as [|b u] eqn:Hd.
      { apply drop_while_nil_all in Hd. congruence. }
      rewrite app_cons.
      pose proof (head_is_drop_while is_white_space after) as Hb.
      pose proof (all_drop_while is_white_space _ after Hafter) as Hall.
      rewrite Hd in Hb, Hall. simpl in Hb, Hall.
      apply andb_true_iff in Hall as [Hw _]. unfold is_word_or_space in Hw.
      rewrite Hb, orb_false_r in Hw. by rewrite (word_not_eq b Hw).
    + destruct after as [|w after']; [done|]. rewrite app_cons.
      simpl in Hhead, Hafter |- *. apply andb_true_iff in Hafter as [Hw _].
      unfold is_word_or_space in Hw. rewrite Hhead in Hw. simpl in Hw.
      by rewrite Hw.
Qed.

Lemma drop_while_white_space_word (R : string) :
  all is_word_or_space R = true → all is_white_space R = false →
  ∃ a t, drop_while is_white_space R = String a t ∧ is_word a = true ∧
         all is_word_or_space t = true.
Proof.
  intros HR Hne.
  pose proof (head_is_drop_while is_white_space R) as Hh.
  pose proof (all_drop_while is_white_space _ R HR) as Hall.
  destruct (drop_while is_white_space R) as [|a t] eqn:Ht.
  { apply drop_while_nil_all in Ht. congruence. }
  simpl in Hh, Hall. apply andb_true_iff in Hall as [Ha Hall].
  unfold is_word_or_space in Ha. rewrite Hh, orb_false_r in Ha.
  by exists a, t.
Qed.

(** The second expression at the start of [R=rest], for [R] as in an
    accepted line: it matches if one word is all that [R] holds, and that
    word is the key. *)
Lemma KeyValue_at n0 R rest :
  all is_word_or_space R = true → all is_white_space R = false →
  m n0 RE_KeyValue (R +:+ String "=" rest) [] final =
  if all is_white_space (drop_while is_word (drop_while is_white_space R))
  then m n0 value_part (drop_while (is_char " ") rest)
         [("key", take_while is_word (drop_while is_white_space R))] final
  else None.
Proof.
  intros HR Hne.
  destruct (drop_while_white_space_word R HR Hne) as (a & t & Ht & Ha & Hall).
  rewrite RE_KeyValue_parts, m_seq, m_star_greedy.
  rewrite greedy_next with (q := not_white_space).
  2:{ intros c Hc. unfold not_white_space. by rewrite Hc. }
  2:{ intros u Hu. rewrite m_seq, m_named. unfold Plus. rewrite m_seq.
      by apply m_class_fails. }
  rewrite drop_while_app_stop by done. rewrite Ht.
  simpl drop_while. simpl take_while. rewrite Ha.
  pose proof (take_drop_while is_word t) as Hsplit.
  pose proof (all_drop_while is_word _ t Hall) as Hafter.
  pose proof (head_is_drop_while is_word t) as Hhead.
  pose proof (all_take_while is_word t) as Hrun.
  set (run := take_while is_word t) in *.
  set (after := drop_while is_word t) in *.
  rewrite <-Hsplit, app_cons, app_assoc.
  by apply key_then_value.
Qed.

Lemma search_cons n0 r a s :
  search n0 r (String a s) =
  match m n0 r (String a s) [] final with
  | Some g => Some g
  | None => search n0 r s
  end.
Proof. done. Qed.

(** ** The last word *)

Lemma trimEnd_cons a (s : string) :
  trimEnd (String a s) =
  if nonempty (trimEnd s) then String a (trimEnd s)
  else if is_white_space a then "" else String a "".
Proof. simpl. by destruct (trimEnd s). Qed.

Lemma trimEnd_white_space (w : string) : all is_white_space w = true → trimEnd w = "".
Proof.
  induction w as [|a w IH]; [done|]. simpl all.
  intros [Ha Hw]%andb_true_iff. by rewrite trimEnd_cons, IH, Ha.
Qed.

Lemma trimEnd_nil (s : string) : trimEnd s = "" → all is_white_space s = true.
Proof.
  induction s as [|a s IH]; [done|]. rewrite trimEnd_cons.
  destruct (trimEnd s) as [|b t]; simpl; [|done].
  destruct (is_white_space a); [auto|done].
Qed.

Lemma trimEnd_app_white_space (s w : string) :
  all is_white_space w = true → trimEnd (s +:+ w) = trimEnd s.
Proof.
  intros Hw. induction s as [|a s IH]; [by apply trimEnd_white_space|].
  by rewrite app_cons, !trimEnd_cons, IH.
Qed.

Lemma trimEnd_app (s t : string) :
  nonempty (trimEnd t) = true → trimEnd (s +:+ t) = s +:+ trimEnd t.
Proof.
  intros Ht. induction s as [|a s IH]; [done|].
  rewrite !app_cons, trimEnd_cons, IH. by rewrite nonempty_app, Ht, orb_true_r.
Qed.

Lemma trimEnd_fixed (s : string) : all not_white_space s = true → trimEnd s = s.
Proof.
  induction s as [|a s IH]; [done|]. simpl all. unfold not_white_space at 1.
  intros [Ha Hs]%andb_true_iff. rewrite trimEnd_cons, IH by done.
  apply negb_true_iff in Ha. rewrite Ha. by destruct s.
Qed.

Lemma trimEnd_split (s : string) :
  ∃ w, s = trimEnd s +:+ w ∧ all is_white_space w = true.
Proof.
  induction s as [|a s (w & Hs & Hw)]; [by exists ""|].
  rewrite trimEnd_cons. destruct (trimEnd s) as [|b t] eqn:Ht; simpl nonempty; cbv iota.
  - rewrite app_nil_l in Hs. subst w. destruct (is_white_space a) eqn:Ha.
    + exists (String a s). split; [done|]. simpl. by rewrite Ha.
    + by exists s.
  - exists w. split; [|done]. by rewrite app_cons, <-Hs.
Qed.

Lemma suffix_run_cons p a (s : string) :
  suffix_run p (String a s) =
  if all p (String a s) then String a s else suffix_run p s.
Proof. done. Qed.

Lemma suffix_run_all p (s : string) : all p s = true → suffix_run p s = s.
Proof. destruct s as [|a s]; [done|]. rewrite suffix_run_cons. by intros ->. Qed.

Lemma all_suffix_run p (s : string) : all p (suffix_run p s) = true.
Proof.
  induction s as [|a s IH]; [done|]. rewrite suffix_run_cons.
  by destruct (all p (String a s)) eqn:Hall.
Qed.

Lemma suffix_run_app_white_space (w run : string) :
  all is_white_space w = true → all is_word run = true →
  suffix_run is_word (w +:+ run) = run.
Proof.
  intros Hw Hrun. induction w as [|a w IH]; [by apply suffix_run_all|].
  simpl in Hw. apply andb_true_iff in Hw as [Ha Hw].
  rewrite app_cons, suffix_run_cons. simpl all.
  rewrite (white_space_not_word a Ha). simpl. auto.
Qed.

(** Where one word is all that [R] holds, it is the last word. *)
Lemma last_word_token (R : string) :
  nonempty (take_while is_word (drop_while is_white_space R)) = true →
  all is_white_space (drop_while is_word (drop_while is_white_space R)) = true →
  last_word R = take_while is_word (drop_while is_white_space R).
Proof.
  intros Hne Hafter. unfold last_word.
  pose proof (take_drop_while is_white_space R) as HR.
  pose proof (take_drop_while is_word (drop_while is_white_space R)) as Ht.
  pose proof (all_take_while is_white_space R) as Hw.
  pose proof (all_take_while is_word (drop_while is_white_space R)) as Hrun.
  set (w := take_while is_white_space R) in *.
  set (run := take_while is_word (drop_while is_white_space R)) in *.
  set (after := drop_while is_word (drop_while is_white_space R)) in *.
  rewrite <-HR, <-Ht, <-app_assoc, trimEnd_app_white_space by done.
  assert (Hfix : trimEnd run = run).
  { apply trimEnd_fixed. eapply all_impl; [|done]. intros c Hc.
    unfold not_white_space. by rewrite (word_not_white_space c Hc). }
  rewrite trimEnd_app by (by rewrite Hfix). rewrite Hfix.
  by apply suffix_run_app_white_space.
Qed.

Lemma white_space_head_not_word (w : string) :
  all is_white_space w = true → head_is is_word w = false.
Proof.
  destruct w as [|a w]; [done|]. simpl. intros [Ha _]%andb_true_iff.
  by apply white_space_not_word.
Qed.

(** Where [R] holds more than one word, its first character does not
    matter. *)
Lemma last_word_skip c (R : string) :
  all is_white_space R = false →
  all is_white_space
    (drop_while is_word (drop_while is_white_space (String c R))) = false →
  last_word (String c R) = last_word R.
Proof.
  intros Hne Hmore. unfold last_word. rewrite trimEnd_cons.
  destruct (nonempty (trimEnd R)) eqn:Ht.
  2:{ destruct (trimEnd R) eqn:Hnil; [|done].
      apply trimEnd_nil in Hnil. congruence. }
  rewrite suffix_run_cons.
  destruct (all is_word (String c (trimEnd R))) eqn:Hall; [|done].
  exfalso. simpl in Hall. apply andb_true_iff in Hall as [Hc Hall].
  destruct (trimEnd_split R) as (w & HR & Hw).
  simpl in Hmore. rewrite (word_not_white_space c Hc) in Hmore.
  simpl in Hmore. rewrite Hc, HR in Hmore.
  rewrite drop_while_app in Hmore by done.
  rewrite drop_while_stop in Hmore by (by apply white_space_head_not_word).
  congruence.
Qed.

Lemma one_word_tail c (R : string) :
  all is_word_or_space (String c R) = true → all is_white_space R = true →
  all is_white_space
    (drop_while is_word (drop_while is_white_space (String c R))) = true.
Proof.
  simpl. intros [Hc HR]%andb_true_iff HR'.
  destruct (is_white_space c) eqn:Hws.
  - by rewrite (drop_while_all _ R HR').
  - unfold is_word_or_space in Hc. rewrite Hws, orb_false_r in Hc.
    simpl. rewrite Hc. by apply all_drop_while.
Qed.

Lemma token_nonempty (R : string) :
  all is_word_or_space R = true → all is_white_space R = false →
  nonempty (take_while is_word (drop_while is_white_space R)) = true.
Proof.
  intros HR Hne.
  destruct (drop_while_white_space_word R HR Hne) as (a & t & -> & Ha & _).
  simpl. by rewrite Ha.
Qed.

(** The key is the last word before the first [=], whatever the match
    position the search settles on. *)
Lemma search_KeyValue n0 rest (R : string) :
  all is_word_or_space R = true → all is_white_space R = false →
  search n0 RE_KeyValue (R +:+ String "=" rest) =
  m n0 value_part (drop_while (is_char " ") rest) [("key", last_word R)] final.
Proof.
  induction R as [|c R IH]; [done|]. intros HR Hne.
  rewrite app_cons, search_cons, <-app_cons, KeyValue_at by done.
  destruct (all is_white_space
              (drop_while is_word (drop_while is_white_space (String c R)))) eqn:Hs.
  - rewrite last_word_token; [|by apply token_nonempty|done].
    by destruct (value_part_is_Some n0
                   [("key", take_while is_word (drop_while is_white_space (String c R)))]
                   (drop_while (is_char " ") rest)) as [x ->].
  - assert (HneR : all is_white_space R = false).
    { destruct (all is_white_space R) eqn:HR'; [|done].
      by rewrite one_word_tail in Hs. }
    rewrite IH; [by rewrite last_word_skip| |done].
    simpl in HR. by apply andb_true_iff in HR as [_ HR].
Qed.

Lemma last_word_nonempty (R : string) :
  all is_word_or_space R = true → all is_white_space R = false →
  nonempty (last_word R) = true.
Proof.
  induction R as [|c R IH]; [done|]. intros HR Hne.
  destruct (all is_white_space
              (drop_while is_word (drop_while is_white_space (String c R)))) eqn:Hs.
  - rewrite last_word_token; [by apply token_nonempty|by apply token_nonempty|done].
  - assert (HneR : all is_white_space R = false).
    { destruct (all is_white_space R) eqn:HR'; [|done].
      by rewrite one_word_tail in Hs. }
    rewrite last_word_skip by done. apply IH; [|done].
    simpl in HR. by apply andb_true_iff in HR as [_ HR].
Qed.

(** ** [parse] as a scanner *)

Lemma parse_line_scan env line : parse_line env line = scan_line env line.
Proof.
  unfold parse_line, scan_line. rewrite test_accepts.
  destruct (accepts line) eqn:Hacc; [|done]. simpl negb. cbv iota.
  destruct (accepts_region line Hacc) as (R & rest & -> & HR & Hne).
  unfold key_of. destruct (before_after_eq R rest HR) as [-> ->].
  unfold exec. rewrite search_KeyValue by done. rewrite value_part_spec.
  unfold value_of. rewrite <-trim_unquoted.
  destruct (drop_while (is_char " ") rest) as [|o body]; [done|].
  destruct (is_quote o); [|done].
  destruct (before_last is_quote (take_while not_CR body)) as [q|]; [|done].
  by destruct q.
Qed.

Lemma parse_lines_scan env lines : parse_lines env lines = scan_lines env lines.
Proof.
  revert env. induction lines as [|line lines IH]; intros env; [done|].
  simpl. rewrite parse_line_scan. by destruct (scan_line env line).
Qed.

(** X11: [parse] is the scanner: a line that is not accepted is skipped; of
    an accepted line the key is the last word before the first [=], and the
    value is read off the text after that [=], as quoted if after the spaces
    a quote opens and another quote follows before the next carriage
    return, and as unquoted up to the first [#] otherwise; the empty quoted
    value throws. *)
Theorem parse_is_scan :
  (∀ env line, parse_line env line = scan_line env line) ∧
  (∀ rawDotenv, parse rawDotenv = scan rawDotenv).
Proof.
  split; [apply parse_line_scan|]. intros rawDotenv. apply parse_lines_scan.
Qed.

(** ** The keys of a parsed map *)

Lemma key_of_word line :
  accepts line = true →
  nonempty (key_of line) = true ∧ all is_word (key_of line) = true.
Proof.
  intros (R & rest & -> & HR & Hne)%accepts_region. unfold key_of.
  destruct (before_after_eq R rest HR) as [-> _].
  split; [by apply last_word_nonempty|apply all_suffix_run].
Qed.

Lemma elem_of_keys_set k k' v o :
  k ∈ Object_keys (set k' v o) → k = k' ∨ k ∈ Object_keys o.
Proof.
  rewrite !elem_of_keys_get, get_set.
  destruct (decide (k' = k)) as [->|]; [by left|by right].
Qed.

Lemma scan_line_keys env line env' k :
  scan_line env line = Return env' → k ∈ Object_keys env' →
  k ∈ Object_keys env ∨ (accepts line = true ∧ k = key_of line).
Proof.
  unfold scan_line. destruct (accepts line); [|intros [= <-]; by left].
  destruct (value_of (after_eq line)) as [v|]; [|done].
  intros [= <-] [->|Hk]%elem_of_keys_set; [by right|by left].
Qed.

Lemma scan_lines_keys (P : string → Prop) lines :
  (∀ line, accepts line = true → P (key_of line)) →
  ∀ env env', (∀ k, k ∈ Object_keys env → P k) →
    scan_lines env lines = Return env' → ∀ k, k ∈ Object_keys env' → P k.
Proof.
  intros HP. induction lines as [|line lines IH]; intros env env' Henv; simpl.
  - by intros [= <-].
  - destruct (scan_line env line) as [env1|] eqn:Hline; [|done].
    apply IH. intros k Hk.
    destruct (scan_line_keys _ _ _ _ Hline Hk) as [?|[Hacc ->]]; auto.
Qed.

(** X12: every key of the map [parse] returns is a non-empty string of
    letters, digits and underscores. *)
Theorem parsed_keys_are_words rawDotenv conf k :
  parse rawDotenv = Return conf → k ∈ Object_keys conf →
  nonempty k = true ∧ all is_word k = true.
Proof.
  intros Hparse. unfold parse in Hparse. rewrite parse_lines_scan in Hparse.
  revert k.
  apply (scan_lines_keys (λ k, nonempty k = true ∧ all is_word k = true)
           (split_lines rawDotenv) key_of_word [] conf); [|done].
  by intros k ?%elem_of_nil.
Qed.

Lemma parsed_keys_are_words_witness :
  nonempty "KEY" = true ∧ all is_word "KEY" = true.
Proof.
  apply (parsed_keys_are_words "MY KEY=1" [("KEY", "1")] "KEY").
  - vm_compute. reflexivity.
  - apply elem_of_cons. by left.
Defined.

(** ** Lines that are skipped *)

Lemma head_is_all p q (s : string) :
  (∀ c, p c = true → q c = false) → all p s = true → head_is q s = false.
Proof.
  intros Hpq. destruct s as [|a s]; [done|]. simpl.
  intros [Ha _]%andb_true_iff. by apply Hpq.
Qed.

Lemma accepts_without_eq line : all not_eq line = true → accepts line = false.
Proof.
  intros Hline. unfold accepts. apply andb_false_iff. right.
  apply head_is_all with (p := not_eq).
  - intros c. unfold not_eq. by intros ->%negb_true_iff.
  - by do 3 apply all_drop_while.
Qed.

(** X13: a line without [=], and a line whose first character after the
    leading white space is not a letter or underscore (a blank line, a
    comment), binds nothing and throws nothing. *)
Theorem skipped_lines env line :
  all not_eq line = true ∨
  head_is is_letter_ (drop_while is_white_space line) = false →
  parse_line env line = Return env.
Proof.
  intros Hline. rewrite parse_line_scan. unfold scan_line.
  assert (accepts line = false) as ->; [|done].
  destruct Hline as [Hline|Hline]; [by apply accepts_without_eq|].
  unfold accepts. by rewrite Hline.
Qed.

Lemma skipped_lines_witness :
  parse_line [("A", "1")] "  # A=2" = Return [("A", "1")] ∧
  parse_line [("A", "1")] "A 2" = Return [("A", "1")].
Proof.
  split.
  - apply (skipped_lines [("A", "1")] "  # A=2"). right. reflexivity.
  - apply (skipped_lines [("A", "1")] "A 2"). left. reflexivity.
Defined.

(** ** White space at the end of a line *)

Lemma white_space_not_hash a : is_white_space a = true → not_hash a = true.
Proof. by_cases a. Qed.
Lemma white_space_not_quote a : is_white_space a = true → is_quote a = false.
Proof. by_cases a. Qed.

Lemma app_eq_cancel (x w y : string) r :
  all is_white_space w = true →
  x +:+ w = y +:+ String "=" r →
  ∃ r', r = r' +:+ w ∧ x = y +:+ String "=" r'.
Proof.
  intros Hw. revert x. induction y as [|c y IH]; intros x.
  - rewrite app_nil_l. destruct x as [|c x].
    + rewrite app_nil_l. intros ->. simpl in Hw. done.
    + rewrite app_cons. intros [= -> <-]. by exists x.
  - rewrite app_cons. destruct x as [|c' x].
    + rewrite app_nil_l. intros ->. exfalso.
      change (String c (y +:+ String "=" r)) with (String c y +:+ String "=" r) in Hw.
      rewrite all_app in Hw. simpl in Hw.
      apply andb_true_iff in Hw as [_ Hw]. done.
    + rewrite app_cons. intros [= -> (r' & -> & ->)%IH]. by exists r'.
Qed.

Lemma accepts_app_white_space line w :
  all is_white_space w = true → accepts (line +:+ w) = accepts line.
Proof.
  intros Hw. rewrite <-!test_accepts.
  destruct (test RE_VariableStart line) eqn:Hline.
  - apply VariableStart_shape in Hline
      as (w1 & a & idt & w2 & rest & -> & ? & ? & ? & ?).
    rewrite test_accepts.
    replace ((w1 +:+ String a (idt +:+ w2 +:+ String "=" rest)) +:+ w)
      with (w1 +:+ String a (idt +:+ w2 +:+ String "=" (rest +:+ w)))
      by (by rewrite !app_assoc, !app_cons, !app_assoc).
    by apply accepts_shape.
  - destruct (test RE_VariableStart (line +:+ w)) eqn:Hline'; [|done].
    apply VariableStart_shape in Hline'
      as (w1 & a & idt & w2 & rest & Heq & ? & ? & ? & ?).
    replace (w1 +:+ String a (idt +:+ w2 +:+ String "=" rest))
      with ((w1 +:+ String a (idt +:+ w2)) +:+ String "=" rest) in Heq
      by (by rewrite !app_assoc, !app_cons, !app_assoc).
    apply app_eq_cancel in Heq as (r' & -> & ->); [|done].
    rewrite test_accepts in Hline.
    replace ((w1 +:+ String a (idt +:+ w2)) +:+ String "=" r')
      with (w1 +:+ String a (idt +:+ w2 +:+ String "=" r')) in Hline
      by (by rewrite !app_assoc, !app_cons, !app_assoc).
    by rewrite accepts_shape in Hline.
Qed.

Lemma drop_while_app_nonempty p (s u : string) :
  nonempty (drop_while p s) = true →
  drop_while p (s +:+ u) = drop_while p s +:+ u.
Proof.
  induction s as [|a s IH]; [done|]. rewrite app_cons. simpl.
  by destruct (p a).
Qed.

Lemma take_while_app_not_all p (s u : string) :
  all p s = false → take_while p (s +:+ u) = take_while p s.
Proof.
  induction s as [|a s IH]; [done|]. rewrite app_cons. simpl.
  destruct (p a); [|done]. simpl. intros Hs. by rewrite IH.
Qed.

Lemma trim_app_white_space (s w : string) :
  all is_white_space w = true → trim (s +:+ w) = trim s.
Proof.
  intros Hw. unfold trim. rewrite !trimStart_drop_while.
  destruct (nonempty (drop_while is_white_space s)) eqn:Hs.
  - rewrite drop_while_app_nonempty by done. by apply trimEnd_app_white_space.
  - assert (Hnil : drop_while is_white_space s = "")
      by (by destruct (drop_while is_white_space s)).
    rewrite Hnil. apply drop_while_nil_all in Hnil.
    by rewrite drop_while_all by (by rewrite all_app, Hnil, Hw).
Qed.

Lemma unquoted_app_white_space (rest w : string) :
  all is_white_space w = true →
  trim (take_while not_hash (rest +:+ w)) = trim (take_while not_hash rest).
Proof.
  intros Hw. destruct (all not_hash rest) eqn:Hrest.
  - rewrite take_while_app by done.
    rewrite (take_while_all not_hash w)
      by (eapply all_impl; [apply white_space_not_hash|done]).
    rewrite (take_while_all not_hash rest) by done.
    by apply trim_app_white_space.
  - by rewrite take_while_app_not_all.
Qed.

Lemma before_last_none q (w : string) :
  all (λ c, negb (q c)) w = true → before_last q w = None.
Proof.
  induction w as [|a w IH]; [done|]. simpl.
  intros [Ha Hw]%andb_true_iff. rewrite IH by done.
  by apply negb_true_iff in Ha as ->.
Qed.

Lemma before_last_app q (s w : string) :
  all (λ c, negb (q c)) w = true → before_last q (s +:+ w) = before_last q s.
Proof.
  intros Hw. induction s as [|a s IH]; [by apply before_last_none|].
  rewrite app_cons. simpl. by rewrite IH.
Qed.

Lemma quoted_app_white_space (body w : string) :
  all is_white_space w = true →
  before_last is_quote (take_while not_CR (body +:+ w)) =
  before_last is_quote (take_while not_CR body).
Proof.
  intros Hw. destruct (all not_CR body) eqn:Hbody.
  - rewrite take_while_app by done.
    rewrite (take_while_all not_CR body) by done.
    apply before_last_app. apply all_take_while_of.
    eapply all_impl; [|done]. intros c Hc.
    by rewrite (white_space_not_quote c Hc).
  - by rewrite take_while_app_not_all.
Qed.

Lemma value_of_app_white_space (rest w : string) :
  all is_white_space w = true → value_of (rest +:+ w) = value_of rest.
Proof.
  intros Hw. unfold value_of. rewrite unquoted_app_white_space by done.
  destruct (drop_while (is_char " ") rest) as [|o body] eqn:Hv.
  - apply drop_while_nil_all in Hv. rewrite drop_while_app by done.
    pose proof (all_drop_while (is_char " ") _ w Hw) as Hw'.
    destruct (drop_while (is_char " ") w) as [|o body]; [done|].
    simpl in Hw'. apply andb_true_iff in Hw' as [Ho _].
    by rewrite (white_space_not_quote o Ho).
  - rewrite drop_while_app_nonempty by (by rewrite Hv). rewrite Hv, app_cons.
    destruct (is_quote o); [|done].
    by rewrite quoted_app_white_space.
Qed.

Lemma parse_line_app_white_space env line w :
  all is_white_space w = true → parse_line env (line +:+ w) = parse_line env line.
Proof.
  intros Hw. rewrite !parse_line_scan. unfold scan_line.
  rewrite accepts_app_white_space by done.
  destruct (accepts line) eqn:Hacc; [|done].
  apply accepts_region in Hacc as (R & rest & -> & HR & Hne).
  unfold key_of. rewrite app_assoc, app_cons.
  destruct (before_after_eq R rest HR) as [-> ->].
  destruct (before_after_eq R (rest +:+ w) HR) as [-> ->].
  by rewrite value_of_app_white_space.
Qed.

Lemma parse_lines_cons env line lines :
  parse_lines env (line :: lines) =
  match parse_line env line with
  | Return env' => parse_lines env' lines
  | Throw e => Throw e
  end.
Proof. done. Qed.

Lemma parse_lines_crlf env lines :
  Forall (λ l, all not_LF l = true) lines →
  parse_lines env (split_lines (join crlf lines)) = parse_lines env lines.
Proof.
  intros Hlines. revert env.
  induction Hlines as [|x lines Hx Hlines IH]; intros env.
  - simpl. apply (skipped_lines env ""). by left.
  - destruct lines as [|y lines].
    + simpl join. by rewrite split_lines_not_LF.
    + change (join crlf (x :: y :: lines))
        with (x +:+ crlf +:+ join crlf (y :: lines)).
      unfold crlf at 1, nl.
      change (x +:+ String CR (String LF "") +:+ join crlf (y :: lines))
        with (x +:+ String CR (String LF (join crlf (y :: lines)))).
      replace (x +:+ String CR (String LF (join crlf (y :: lines))))
        with ((x +:+ String CR "") +:+ String LF (join crlf (y :: lines)))
        by (by rewrite app_assoc).
      rewrite split_lines_app by (by rewrite all_app, Hx).
      rewrite (parse_lines_cons env (x +:+ String CR "")), (parse_lines_cons env x).
      rewrite parse_line_app_white_space by done.
      destruct (parse_line env x); [apply IH|done].
Qed.

Lemma suffix_run_white_space_app (w t : string) :
  all is_white_space w = true →
  suffix_run is_word (w +:+ t) = suffix_run is_word t.
Proof.
  intros Hw. induction w as [|a w IH]; [done|].
  simpl in Hw. apply andb_true_iff in Hw as [Ha Hw].
  rewrite app_cons, suffix_run_cons. simpl all.
  rewrite (white_space_not_word a Ha). simpl. auto.
Qed.

Lemma last_word_white_space_app (w R : string) :
  all is_white_space w = true → all is_white_space R = false →
  last_word (w +:+ R) = last_word R.
Proof.
  intros Hw HR. unfold last_word. rewrite trimEnd_app.
  - by apply suffix_run_white_space_app.
  - destruct (trimEnd R) eqn:Hnil; [|done].
    apply trimEnd_nil in Hnil. congruence.
Qed.

Lemma parse_line_white_space_app env w line :
  all is_white_space w = true → parse_line env (w +:+ line) = parse_line env line.
Proof.
  intros Hw. rewrite !parse_line_scan. unfold scan_line.
  assert (Hacc : accepts (w +:+ line) = accepts line).
  { unfold accepts. by rewrite drop_while_app. }
  rewrite Hacc. destruct (accepts line) eqn:Hline; [|done].
  apply accepts_region in Hline as (R & rest & -> & HR & Hne).
  unfold key_of. rewrite <-app_assoc.
  destruct (before_after_eq R rest HR) as [-> ->].
  destruct (before_after_eq (w +:+ R) rest) as [-> ->].
  { rewrite all_app, HR, andb_true_r. eapply all_impl; [|done].
    intros c Hc. unfold is_word_or_space. by rewrite Hc, orb_true_r. }
  by rewrite last_word_white_space_app.
Qed.

(** X14: white space around a line changes nothing: with white space before
    it and after it, the line binds the same key to the same value, is
    skipped or throws as without. So a text whose lines end in a carriage
    return and a line feed parses to the same map as the text with line
    feeds alone. *)
Theorem white_space_around_line :
  (∀ env w1 line w2,
     all is_white_space w1 = true → all is_white_space w2 = true →
     parse_line env (w1 +:+ line +:+ w2) = parse_line env line) ∧
  (∀ lines, Forall (λ l, all not_LF l = true) lines →
     parse (join crlf lines) = parse (join nl lines)).
Proof.
  split.
  - intros env w1 line w2 Hw1 Hw2.
    by rewrite parse_line_white_space_app, parse_line_app_white_space.
  - intros lines Hlines. unfold nl. rewrite (parse_join lines) by done.
    by apply parse_lines_crlf.
Qed.

Lemma white_space_around_line_witness :
  parse_line [] ("  " +:+ "A='b' # c" +:+ String CR " ") = parse_line [] "A='b' # c" ∧
  parse (join crlf ["A=1"; "B='2'"; ""]) = parse (join nl ["A=1"; "B='2'"; ""]).
Proof.
  split.
  - apply (proj1 white_space_around_line [] "  " "A='b' # c" (String CR " "));
      reflexivity.
  - apply (proj2 white_space_around_line ["A=1"; "B='2'"; ""]). repeat constructor.
Defined.

(** ** The error of safe mode *)

Lemma assertSafe_throws conf confExample allow (env : gmap string string) e :
  wf conf →
  (assertSafe conf confExample allow env).1 = Throw e →
  missing_keys env conf confExample allow ≠ [] ∧
  e = MissingEnvVarsError
        (errorMessage (missing_keys env conf confExample allow) allow).
Proof.
  intros Hwf. rewrite assertSafe_spec by done. simpl.
  destruct (missing_keys env conf confExample allow) as [|k l]; [done|].
  by intros [= <-].
Qed.

Lemma load_steps_missing read o (env : gmap string string) message :
  (∀ p c, read p = Return c → wf c) →
  (∀ p message, read p ≠ Throw (MissingEnvVarsError message)) →
  (load_steps read o env).1 = Throw (MissingEnvVarsError message) →
  o_safe o = true ∧
  ∃ conf0 confExample,
    read (o_path o) = Return conf0 ∧
    read (o_example o) = Return confExample ∧
    ∃ conf,
      (if nonempty (o_defaults o)
       then ∃ confDefaults, read (o_defaults o) = Return confDefaults ∧
              conf = copy_defaults conf0 confDefaults
       else conf = conf0) ∧
      missing_keys env conf confExample (o_allowEmptyValues o) ≠ [] ∧
      message = errorMessage
                  (missing_keys env conf confExample (o_allowEmptyValues o))
                  (o_allowEmptyValues o).
Proof.
  intros Hwf Hread. unfold load_steps.
  destruct (read (o_path o)) as [conf0|e0] eqn:H0;
    [|intros [= ->]; by apply Hread in H0].
  pose proof (Hwf _ _ H0) as Hwf0.
  assert (Hsafe : ∀ conf, wf conf →
    (match (if o_safe o then
              match read (o_example o) with
              | Return confExample =>
                  (assertSafe conf confExample (o_allowEmptyValues o) env).1
              | Throw e => Throw e
              end
            else Return ()) with
     | Return _ =>
         (Return conf,
          if o_export o then (for_in conf (export_key conf) env).2 else env)
     | Throw e => (Throw e, env)
     end).1 = Throw (MissingEnvVarsError message) →
    o_safe o = true ∧
    ∃ confExample, read (o_example o) = Return confExample ∧
      missing_keys env conf confExample (o_allowEmptyValues o) ≠ [] ∧
      message = errorMessage
                  (missing_keys env conf confExample (o_allowEmptyValues o))
                  (o_allowEmptyValues o)).
  { intros conf Hconf. destruct (o_safe o); [|done].
    destruct (read (o_example o)) as [confExample|e2] eqn:H2;
      [|intros [= ->]; by apply Hread in H2].
    destruct (assertSafe _ _ _ _).1 as [[]|e3] eqn:H3; [done|].
    apply assertSafe_throws in H3 as [Hne ->]; [|done].
    intros [= <-]. split; [done|]. by exists confExample. }
  destruct (nonempty (o_defaults o)).
  - destruct (read (o_defaults o)) as [confDefaults|e1] eqn:H1;
      [|intros [= ->]; by apply Hread in H1].
    intros (Hs & confExample & Hex & Hne & Hmsg)%Hsafe;
      [|by apply wf_copy_defaults].
    split; [done|]. exists conf0, confExample. split; [done|]. split; [done|].
    exists (copy_defaults conf0 confDefaults). split; [by exists confDefaults|done].
  - intros (Hs & confExample & Hex & Hne & Hmsg)%Hsafe; [|done].
    split; [done|]. exists conf0, confExample. split; [done|]. split; [done|].
    by exists conf0.
Qed.

(** X15: [configSync] and [config] throw [MissingEnvVarsError] only in safe
    mode, only after every source has been read and parsed, and only when
    some key of the example map is not present in the overlay; the message
    is the one of those keys. With [safe] off the error is never thrown. *)
Theorem missing_error_needs_safe load read D options (env : gmap string string)
    message :
  let o := spread defaultConfigOptions options in
  (load, read) ∈ loads →
  (load D options env).1 = Throw (MissingEnvVarsError message) →
  o_safe o = true ∧
  ∃ conf0 confExample,
    read D (o_path o) = Return conf0 ∧
    read D (o_example o) = Return confExample ∧
    ∃ conf,
      (if nonempty (o_defaults o)
       then ∃ confDefaults, read D (o_defaults o) = Return confDefaults ∧
              conf = copy_defaults conf0 confDefaults
       else conf = conf0) ∧
      missing_keys env conf confExample (o_allowEmptyValues o) ≠ [] ∧
      message = errorMessage
                  (missing_keys env conf confExample (o_allowEmptyValues o))
                  (o_allowEmptyValues o).
Proof.
  intros o Hin. rewrite (loads_steps load read) by done. fold o.
  apply load_steps_missing; [by apply (read_wf load)|].
  intros p message' Hthrow. unfold loads in Hin.
  apply elem_of_cons in Hin as [[= -> ->]|Hin];
    [|apply list_elem_of_singleton in Hin as [= -> ->]].
  - by apply parseFile_throws in Hthrow as [?|[? ?]].
  - by apply parseFileAsync_throws in Hthrow as [?|[? ?]].
Qed.

Lemma missing_error_needs_safe_witness :
  o_safe (spread defaultConfigOptions safe_true) = true ∧
  ∃ conf0 confExample,
    parseFile D_K_empty ".env" = Return conf0 ∧
    parseFile D_K_empty ".env.example" = Return confExample ∧
    ∃ conf,
      (∃ confDefaults, parseFile D_K_empty ".env.defaults" = Return confDefaults ∧
         conf = copy_defaults conf0 confDefaults) ∧
      missing_keys env_K conf confExample false ≠ [] ∧
      errorMessage ["K"] false =
        errorMessage (missing_keys env_K conf confExample false) false.
Proof.
  apply (missing_error_needs_safe configSync parseFile D_K_empty safe_true env_K
           (errorMessage ["K"] false) configSync_in_loads).
  vm_compute. reflexivity.
Defined.
